(** * Projectile motion simulator: the physics model and the scene bounds

    A shallow embedding of [main.py]: the [Projectile] class (constructor and
    [step]), and the parts of [ProjectileApp] that own the collection of
    projectiles ([spawn_projectile], [clear_all], [update] and the extent scan
    of [world_to_screen]).

    Numbers.  A Python [float] is modelled by a real number of the Standard
    Library: the arithmetic is exact, so rounding, overflow, infinities and
    NaN are outside this model; where a statement needs a float to be a
    finite number, it says so with [finite].  Python raises
    [ZeroDivisionError] on a float division by zero and [IndexError] on a
    list index out of range; both are kept, as results in an error monad. *)

From Stdlib Require Import String Ascii.
From Stdlib Require Import Reals ZArith Lra Lia List Bool Sorted.
Import ListNotations.

Open Scope R_scope.

(** ** Exceptions *)

Inductive exn : Type :=
| ZeroDivisionError
| IndexError.

Inductive result (A : Type) : Type :=
| Ok (a : A)
| Raise (e : exn).

Arguments Ok {A} a.
Arguments Raise {A} e.

Definition bind {A B : Type} (c : result A) (k : A -> result B) : result B :=
  match c with
  | Ok a => k a
  | Raise e => Raise e
  end.

Notation "x <- c ;; k" := (bind c (fun x => k))
  (at level 61, c at next level, right associativity).
Notation "' pat <- c ;; k" := (bind c (fun x => match x with pat => k end))
  (at level 61, pat pattern, c at next level, right associativity).

(** ** Float comparisons and builtins *)

Definition fgt (a b : R) : bool := if Rgt_dec a b then true else false.
Definition flt (a b : R) : bool := if Rlt_dec a b then true else false.
Definition fle (a b : R) : bool := if Rle_dec a b then true else false.
Definition feq (a b : R) : bool := if Req_dec_T a b then true else false.

(** [a / b] on floats. *)
Definition fdiv (a b : R) : result R :=
  if feq b 0 then Raise ZeroDivisionError else Ok (a / b).

(** [max(a, b)] and [min(a, b)] of two arguments: the first one is kept
    unless the second is strictly better. *)
Definition py_max (a b : R) : R := if fgt b a then b else a.
Definition py_min (a b : R) : R := if flt b a then b else a.

(** [math.hypot], [math.radians] and [x ** y] (the source calls the last one
    with a positive base only, under the guard [volume > 0]). *)
Definition hypot (a b : R) : R := sqrt (a * a + b * b).
Definition radians (d : R) : R := d * PI / 180.
Definition fpow (b e : R) : R := Rpower b e.

(** [l[-k]] for [k >= 1], and the assignment [l[-1] = v]. *)
Definition neg_index {A : Type} (l : list A) (k : nat) : result A :=
  match nth_error (rev l) (pred k) with
  | Some a => Ok a
  | None => Raise IndexError
  end.

Definition set_last {A : Type} (l : list A) (v : A) : result (list A) :=
  match rev l with
  | [] => Raise IndexError
  | _ :: r => Ok (rev (v :: r))
  end.

(** ** Constants *)

Definition G_EARTH : R := 9.81.
Definition AIR_DENSITY : R := 1.225.
Definition DRAG_COEFF : R := 0.47.

Definition Color : Type := (nat * nat * nat)%type.

Definition TRAJECTORY_COLORS : list Color :=
  [ (255, 120, 120); (120, 200, 255); (160, 120, 255);
    (255, 210, 120); (120, 255, 180); (240, 140, 255) ]%nat.

Definition clamp (v a b : R) : R := py_max a (py_min b v).

(** [random.choice(TRAJECTORY_COLORS)]; [draw] is the random draw. *)
Definition gen_color (draw : nat) : Color :=
  nth (draw mod length TRAJECTORY_COLORS) TRAJECTORY_COLORS (0, 0, 0)%nat.

(** ** The projectile model *)

(** One trajectory sample [(t, x, y)]. *)
Definition sample : Type := (R * R * R)%type.

Definition s_t (s : sample) : R := fst (fst s).
Definition s_x (s : sample) : R := snd (fst s).
Definition s_y (s : sample) : R := snd s.

Module Projectile.

Record obj : Type := mk {
  angle : R;
  v0 : R;
  mass : R;
  y0 : R;
  air : bool;
  vx : R;
  vy : R;
  x : R;
  y : R;
  t : R;
  dt : R;
  trajectory : list sample;
  landed : bool;
  max_height : R;
  final_speed : R;
  flight_time : R;
  range : R;
  color : Color;
  area : R
}.

(** The body of the [try] block of [__init__]. *)
Definition derive_area (mass : R) : result R :=
  volume <- fdiv mass 1000.0 ;;
  if fle volume 0 then Ok 0.01
  else
    q <- fdiv (3 * volume) (4 * PI) ;;
    let radius := fpow q (1.0 / 3.0) in
    Ok (PI * radius * radius).

(** The [try ... except Exception] around it. *)
Definition area_of (mass : R) : R :=
  match derive_area mass with
  | Ok a => a
  | Raise _ => 0.01
  end.

(** [Projectile.__init__]; [draw] feeds [gen_color] when no colour is
    given. *)
Definition init (angle_deg speed mass y0 : R) (air_resistance : bool)
    (color : option Color) (draw : nat) : obj :=
  let angle := radians angle_deg in
  let v0 := speed in
  let vx := v0 * cos angle in
  let vy := v0 * sin angle in
  let x := 0.0 in
  let y := y0 in
  let t := 0.0 in
  {| angle := angle; v0 := v0; mass := mass; y0 := y0;
     air := air_resistance;
     vx := vx; vy := vy; x := x; y := y; t := t; dt := 0.01;
     trajectory := [(t, x, y)];
     landed := false;
     max_height := y0; final_speed := 0.0; flight_time := 0.0;
     range := 0.0;
     color := match color with Some c => c | None => gen_color draw end;
     area := area_of mass |}.

(** The acceleration [(ax, ay)] computed by [step] from the speed
    magnitude [v]. *)
Definition acceleration (p : obj) (v : R) : result (R * R) :=
  if air p && fgt v 0 then
    let drag_force := 0.5 * AIR_DENSITY * DRAG_COEFF * area p * v * v in
    ux <- fdiv (vx p) v ;;
    ax <- fdiv (- (drag_force * ux)) (mass p) ;;
    uy <- fdiv (vy p) v ;;
    fy <- fdiv (- (drag_force * uy)) (mass p) ;;
    Ok (ax, fy - G_EARTH)
  else Ok (0.0, - G_EARTH).

(** Euler integration and the [append] to the trajectory. *)
Definition integrate (p : obj) (ax ay : R) : obj :=
  let dt := dt p in
  let vx := vx p + ax * dt in
  let vy := vy p + ay * dt in
  let x := x p + vx * dt in
  let y := y p + vy * dt in
  let t := t p + dt in
  {| angle := angle p; v0 := v0 p; mass := mass p; y0 := y0 p;
     air := air p;
     vx := vx; vy := vy; x := x; y := y; t := t; dt := dt;
     trajectory := trajectory p ++ [(t, x, y)];
     landed := landed p;
     max_height := max_height p; final_speed := final_speed p;
     flight_time := flight_time p; range := range p;
     color := color p; area := area p |}.

(** The running maximum of the height. *)
Definition update_metrics (p : obj) : obj :=
  if fgt (y p) (max_height p) then
    {| angle := angle p; v0 := v0 p; mass := mass p; y0 := y0 p;
       air := air p;
       vx := vx p; vy := vy p; x := x p; y := y p; t := t p; dt := dt p;
       trajectory := trajectory p;
       landed := landed p;
       max_height := y p; final_speed := final_speed p;
       flight_time := flight_time p; range := range p;
       color := color p; area := area p |}
  else p.

(** The landing branch, taken when the new [y] is [<= 0]. *)
Definition land (p : obj) : result obj :=
  '(t2, x2, y2) <- neg_index (trajectory p) 1 ;;
  '(t1, x1, y1) <- neg_index (trajectory p) 2 ;;
  frac <- (if feq y2 y1 then Ok 0.0 else fdiv (0 - y1) (y2 - y1)) ;;
  let frac := clamp frac 0.0 1.0 in
  let t_land := t1 + frac * (t2 - t1) in
  let x_land := x1 + frac * (x2 - x1) in
  traj <- set_last (trajectory p) (t_land, x_land, 0.0) ;;
  Ok {| angle := angle p; v0 := v0 p; mass := mass p; y0 := y0 p;
        air := air p;
        vx := vx p; vy := vy p; x := x p; y := y p; t := t p; dt := dt p;
        trajectory := traj;
        landed := true;
        max_height := max_height p;
        final_speed := hypot (vx p) (vy p);
        flight_time := t_land; range := x_land;
        color := color p; area := area p |}.

(** [Projectile.step]. *)
Definition step (p : obj) : result obj :=
  if landed p then Ok p
  else
    let v := hypot (vx p) (vy p) in
    '(ax, ay) <- acceleration p v ;;
    let p := integrate p ax ay in
    let p := update_metrics p in
    if fle (y p) 0 then land p else Ok p.

(** [n] calls of [step] in a row. *)
Fixpoint run (n : nat) (p : obj) : result obj :=
  match n with
  | O => Ok p
  | S n => p' <- step p ;; run n p'
  end.

End Projectile.

(** ** The scene *)

Module ProjectileApp.

(** The simulation state of the application; the widgets are left out and
    their values are arguments of [spawn_projectile]. *)
Record obj : Type := mk {
  projectiles : list Projectile.obj;
  is_playing : bool;
  selected_index : option nat
}.

(** The simulation state set up by [__init__]. *)
Definition init : obj :=
  {| projectiles := []; is_playing := true; selected_index := None |}.

(** [spawn_projectile]: the four numbers are the [get_value()] of the
    text fields, [air] the state of the toggle. *)
Definition spawn_projectile (app : obj) (angle speed mass_value
    height_value : R) (air : bool) (draw : nat) : obj :=
  let mass := py_max 0.0001 mass_value in
  let h0 := py_max 0.0 height_value in
  let p := Projectile.init angle speed mass h0 air
             (Some (gen_color draw)) draw in
  let ps := projectiles app ++ [p] in
  {| projectiles := ps; is_playing := is_playing app;
     selected_index := Some (length ps - 1)%nat |}.

Definition clear_all (app : obj) : obj :=
  {| projectiles := []; is_playing := is_playing app;
     selected_index := None |}.

(** The loop of [update] over the projectiles. *)
Fixpoint step_all (ps : list Projectile.obj)
    : result (list Projectile.obj) :=
  match ps with
  | [] => Ok []
  | p :: ps =>
      p' <- (if negb (Projectile.landed p) then Projectile.step p
             else Ok p) ;;
      ps' <- step_all ps ;;
      Ok (p' :: ps')
  end.

(** [update], without the message timer. *)
Definition update (app : obj) : result obj :=
  if is_playing app then
    ps <- step_all (projectiles app) ;;
    Ok {| projectiles := ps; is_playing := is_playing app;
          selected_index := selected_index app |}
  else Ok app.

(** The extent scan of [world_to_screen] (and of [draw]): the inner loop
    over one trajectory, the outer loop over the projectiles, and the
    padding and floor that follow. *)
Definition scan_sample (m : R * R) (s : sample) : R * R :=
  let '(max_x, max_y) := m in
  let '(_, x, y) := s in
  let max_x := if fgt x max_x then x else max_x in
  let max_y := if fgt y max_y then y else max_y in
  (max_x, max_y).

Definition scan_trajectory (m : R * R) (p : Projectile.obj) : R * R :=
  fold_left scan_sample (Projectile.trajectory p) m.

Definition compute_bounds (ps : list Projectile.obj) : R * R :=
  let '(max_x, max_y) := fold_left scan_trajectory ps (10.0, 5.0) in
  let max_x := max_x * 1.2 in
  let max_y := max_y * 1.2 in
  let max_x := py_max max_x 1e-3 in
  let max_y := py_max max_y 1e-3 in
  (max_x, max_y).

End ProjectileApp.

(** ** Projectiles of a run, and the words of the specification *)

(** The projectiles that exist in a run of the program: built by the
    constructor, then stepped. *)
Inductive reachable : Projectile.obj -> Prop :=
| reach_init (angle_deg speed mass y0 : R) (air_resistance : bool)
    (color : option Color) (draw : nat) :
    reachable
      (Projectile.init angle_deg speed mass y0 air_resistance color draw)
| reach_step (p p' : Projectile.obj) :
    reachable p -> Projectile.step p = Ok p' -> reachable p'.

(** The times of a trajectory.  They are increasing when no time is smaller
    than the one before it, strictly increasing when each is greater. *)
Definition times (l : list sample) : list R := map s_t l.
Definition strictly_increasing (l : list R) : Prop := Sorted Rlt l.
Definition increasing (l : list R) : Prop := Sorted Rle l.

(** The crossing fraction of the landing interpolation, in the words of the
    specification: [(0 - y1) / (y2 - y1)] clamped to [[0, 1]], and [0] in the
    degenerate case [y2 = y1]. *)
Definition crossing_fraction (y1 y2 : R) : R :=
  Rmax 0 (Rmin 1 (if Req_dec_T y2 y1 then 0 else (0 - y1) / (y2 - y1))).

(** The state of a projectile in flight: the last sample is the current
    [(t, x, y)], the times increase strictly and the landing metrics still
    have their initial value. *)
Definition in_flight (p : Projectile.obj) : Prop :=
  Projectile.dt p = 0.01 /\
  (exists pre,
     Projectile.trajectory p
     = pre ++ [(Projectile.t p, Projectile.x p, Projectile.y p)]) /\
  strictly_increasing (times (Projectile.trajectory p)) /\
  Projectile.flight_time p = 0 /\
  Projectile.range p = 0 /\
  Projectile.final_speed p = 0.

(** The largest element of a list, not below the default [d]. *)
Definition largest (d : R) (l : list R) : R := fold_right Rmax d l.

(** Every sample of every trajectory of a collection. *)
Definition all_samples (ps : list Projectile.obj) : list sample :=
  flat_map Projectile.trajectory ps.

(** [q] is [p] after more samples were appended to its trajectory. *)
Definition grown (p q : Projectile.obj) : Prop :=
  exists more, Projectile.trajectory q = Projectile.trajectory p ++ more.

(** A projectile launched with speed 0 from the ground, without drag. *)
Definition at_rest : Projectile.obj :=
  Projectile.init 0 0 1 0 false None 0.

(** The order on pairs of bounds, component by component. *)
Definition bounds_le (b b' : R * R) : Prop :=
  fst b <= fst b' /\ snd b <= snd b'.

(** A projectile launched straight up at 10 m/s, without drag. *)
Definition rising : Projectile.obj :=
  Projectile.init 90 10 1 0 false None 0.

(** A projectile of 1 kg launched straight down from the ground at
    100000 m/s, with drag. *)
Definition plunging : Projectile.obj :=
  Projectile.init (-90) 100000 1 0 true None 0.

(** A projectile of 1 kg launched horizontally from the ground at
    1000000 m/s, with drag. *)
Definition skimming : Projectile.obj :=
  Projectile.init 0 1000000 1 0 true None 0.

(** The state in which [__init__] leaves a projectile whose starting height
    is [0], whatever its velocity, mass, area and drag switch: at the
    origin, at time [0], with the seed sample as its trajectory. *)
Definition launched_from_ground (p : Projectile.obj) : Prop :=
  Projectile.y0 p = 0 /\ Projectile.x p = 0 /\ Projectile.y p = 0 /\
  Projectile.t p = 0 /\ Projectile.dt p = 0.01 /\
  Projectile.trajectory p = [(0, 0, 0)] /\ Projectile.landed p = false.

(** The largest finite float, [sys.float_info.max].  A float is finite
    when it lies between [- FLOAT_MAX] and [FLOAT_MAX]: neither infinity
    nor NaN does. *)
Definition FLOAT_MAX : R := 1.7976931348623157e308.

Definition finite (r : R) : Prop := - FLOAT_MAX <= r <= FLOAT_MAX.

(** ** More of the application *)

(** [int(x)] of a float: truncation towards zero. *)
Definition int_of_float (r : R) : Z :=
  if fle 0 r then Int_part r else (- Int_part (- r))%Z.

(** A [pygame.Rect], unpacked as [(x, y, w, h)]. *)
Definition Rect : Type := (Z * Z * Z * Z)%type.

(** [ProjectileApp.world_to_screen], from the graph rectangle and the
    projectiles of the application. *)
Definition world_to_screen (graph_rect : Rect) (ps : list Projectile.obj)
    (x_m y_m : R) : result (Z * Z) :=
  let '(gx, gy, gw, gh) := graph_rect in
  let '(max_x, max_y) := ProjectileApp.compute_bounds ps in
  qx <- fdiv x_m max_x ;;
  let sx := IZR gx + qx * IZR gw in
  qy <- fdiv y_m max_y ;;
  let sy := IZR (gy + gh) - qy * IZR gh in
  Ok (int_of_float sx, int_of_float sy).

(** The selection by a click in [handle_events]: the state of the scan is
    [(nearest, nr_dist, sel_idx)]. *)
Definition hit_state : Type :=
  (option Projectile.obj * R * option nat)%type.

(** The body of the inner loop, for one sample of projectile [p] of index
    [idx]. *)
Definition hit_sample (graph_rect : Rect) (ps : list Projectile.obj)
    (scale : R) (mx my : Z) (idx : nat) (p : Projectile.obj)
    (st : hit_state) (s : sample) : result hit_state :=
  let '(nearest, nr_dist, sel_idx) := st in
  let '(_, x, y) := s in
  '(sx, sy) <- world_to_screen graph_rect ps x y ;;
  let d := hypot (IZR (sx - mx)) (IZR (sy - my)) in
  if flt d nr_dist && flt d (12 * scale) then Ok (Some p, d, Some idx)
  else Ok st.

(** The inner loop, over the trajectory of one projectile. *)
Fixpoint hit_samples (graph_rect : Rect) (ps : list Projectile.obj)
    (scale : R) (mx my : Z) (idx : nat) (p : Projectile.obj)
    (l : list sample) (st : hit_state) : result hit_state :=
  match l with
  | [] => Ok st
  | s :: l =>
      st' <- hit_sample graph_rect ps scale mx my idx p st s ;;
      hit_samples graph_rect ps scale mx my idx p l st'
  end.

(** The outer loop, over [enumerate(self.projectiles)] from index [idx]. *)
Fixpoint hit_projectiles (graph_rect : Rect) (ps : list Projectile.obj)
    (scale : R) (mx my : Z) (idx : nat) (l : list Projectile.obj)
    (st : hit_state) : result hit_state :=
  match l with
  | [] => Ok st
  | p :: l =>
      st' <- match Projectile.trajectory p with
             | [] => Ok st
             | _ :: _ =>
                 hit_samples graph_rect ps scale mx my idx p
                   (Projectile.trajectory p) st
             end ;;
      hit_projectiles graph_rect ps scale mx my (S idx) l st'
  end.

(** The selection part of [handle_events] for a [MOUSEBUTTONDOWN] at
    [(mx, my)]; [collidepoint] is [pygame.Rect.collidepoint]. *)
Definition select_at (collidepoint : Rect -> Z * Z -> bool)
    (graph_rect : Rect) (scale : R) (app : ProjectileApp.obj)
    (pos : Z * Z) : result ProjectileApp.obj :=
  let '(mx, my) := pos in
  if collidepoint graph_rect (mx, my) then
    '(_, _, sel_idx) <-
      hit_projectiles graph_rect (ProjectileApp.projectiles app) scale
        mx my 0 (ProjectileApp.projectiles app) (None, 9999, None) ;;
    match sel_idx with
    | Some i =>
        Ok {| ProjectileApp.projectiles := ProjectileApp.projectiles app;
              ProjectileApp.is_playing := ProjectileApp.is_playing app;
              ProjectileApp.selected_index := Some i |}
    | None => Ok app
    end
  else Ok app.

(** The [K_SPACE] branch of [handle_events]. *)
Definition toggle_playing (app : ProjectileApp.obj) : ProjectileApp.obj :=
  {| ProjectileApp.projectiles := ProjectileApp.projectiles app;
     ProjectileApp.is_playing := negb (ProjectileApp.is_playing app);
     ProjectileApp.selected_index := ProjectileApp.selected_index app |}.

(** The states of the application in a run: from the initial state, by
    launches, clearings, updates that return, pauses and clicks. *)
Inductive app_reachable : ProjectileApp.obj -> Prop :=
| app_init : app_reachable ProjectileApp.init
| app_spawn (app : ProjectileApp.obj) (angle speed mass_value
    height_value : R) (air : bool) (draw : nat) :
    app_reachable app ->
    app_reachable
      (ProjectileApp.spawn_projectile app angle speed mass_value
         height_value air draw)
| app_clear (app : ProjectileApp.obj) :
    app_reachable app -> app_reachable (ProjectileApp.clear_all app)
| app_update (app app' : ProjectileApp.obj) :
    app_reachable app -> ProjectileApp.update app = Ok app' ->
    app_reachable app'
| app_toggle (app : ProjectileApp.obj) :
    app_reachable app -> app_reachable (toggle_playing app)
| app_select (collidepoint : Rect -> Z * Z -> bool) (graph_rect : Rect)
    (scale : R) (pos : Z * Z) (app app' : ProjectileApp.obj) :
    app_reachable app ->
    select_at collidepoint graph_rect scale app pos = Ok app' ->
    app_reachable app'.

(** The distance on screen between the click [(mx, my)] and the sample [s],
    as the selection computes it. *)
Definition screen_distance (graph_rect : Rect) (ps : list Projectile.obj)
    (mx my : Z) (s : sample) : R :=
  match world_to_screen graph_rect ps (s_x s) (s_y s) with
  | Ok (sx, sy) => hypot (IZR (sx - mx)) (IZR (sy - my))
  | Raise _ => 0
  end.

(** ** The transient message *)

Definition FPS : Z := 60.

(** The message attributes of the application, once [run] has set them. *)
Record Message : Type := mkMessage {
  msg_text : string;
  msg_color : option Color;
  msg_timer : R
}.

(** [flash_message]. *)
Definition flash_message (text : string) (color : Color) (duration : R)
    : Message :=
  {| msg_text := text; msg_color := Some color;
     msg_timer := duration * IZR FPS |}.

(** The message timer part of [update]. *)
Definition update_message (m : Message) : Message :=
  if fgt (msg_timer m) 0 then
    let timer := msg_timer m - 1 in
    if fle timer 0 then
      {| msg_text := EmptyString; msg_color := None; msg_timer := timer |}
    else
      {| msg_text := msg_text m; msg_color := msg_color m;
         msg_timer := timer |}
  else m.

(** [k] frames of it. *)
Fixpoint update_message_n (k : nat) (m : Message) : Message :=
  match k with
  | O => m
  | S k => update_message_n k (update_message m)
  end.

(** [ProjectileApp.update] in full: the projectiles when the application is
    playing, then the message timer, which runs whether it is playing or
    paused. *)
Definition update_frame (app : ProjectileApp.obj) (m : Message)
    : result (ProjectileApp.obj * Message) :=
  app' <- ProjectileApp.update app ;;
  Ok (app', update_message m).

(** ** The text fields *)

(** The keys that the application tells apart. *)
Inductive Key : Type :=
| K_RETURN
| K_TAB
| K_BACKSPACE
| K_SPACE
| K_F11
| K_OTHER (code : Z).

(** The events, with the attributes that the application reads. *)
Inductive Event : Type :=
| QUIT
| VIDEORESIZE (w h : Z)
| KEYDOWN (key : Key) (unicode : string)
| MOUSEBUTTONDOWN (pos : Z * Z)
| MOUSEMOTION (pos : Z * Z)
| OTHER_EVENT.

(** [u in s] on strings: [u] occurs in [s]. *)
Fixpoint str_in (u s : string) : bool :=
  orb (prefix u s)
      match s with
      | EmptyString => false
      | String _ s' => str_in u s'
      end.

(** [s[:-1]]. *)
Fixpoint drop_last (s : string) : string :=
  match s with
  | EmptyString => EmptyString
  | String c s' =>
      match s' with
      | EmptyString => EmptyString
      | String _ _ => String c (drop_last s')
      end
  end.

Module TextField.

(** The attributes of a text field, but its font. *)
Record obj : Type := mk {
  label : string;
  text : string;
  rect : Rect;
  active : bool;
  cursor_timer : Z;
  scale : R
}.

(** The first [if] of [handle_event]. *)
Definition on_mouse (collidepoint : Rect -> Z * Z -> bool) (f : obj)
    (ev : Event) : obj :=
  match ev with
  | MOUSEBUTTONDOWN pos =>
      {| label := label f; text := text f; rect := rect f;
         active := collidepoint (rect f) pos; cursor_timer := 0;
         scale := scale f |}
  | _ => f
  end.

Definition set_text (f : obj) (s : string) : obj :=
  {| label := label f; text := s; rect := rect f; active := active f;
     cursor_timer := cursor_timer f; scale := scale f |}.

(** The second [if] of [handle_event]. *)
Definition on_key (f : obj) (ev : Event) : obj :=
  match ev with
  | KEYDOWN key unicode =>
      if active f then
        match key with
        | K_RETURN | K_TAB =>
            {| label := label f; text := text f; rect := rect f;
               active := false; cursor_timer := cursor_timer f;
               scale := scale f |}
        | K_BACKSPACE => set_text f (drop_last (text f))
        | _ =>
            if str_in unicode "0123456789.-" then
              if String.eqb unicode "." && str_in "." (text f) then f
              else if String.eqb unicode "-"
                      && ((0 <? String.length (text f))%nat
                          || str_in "-" (text f)) then f
              else set_text f (text f ++ unicode)
            else f
        end
      else f
  | _ => f
  end.

(** [TextField.handle_event]; [collidepoint] is
    [pygame.Rect.collidepoint]. *)
Definition handle_event (collidepoint : Rect -> Z * Z -> bool) (f : obj)
    (ev : Event) : obj :=
  on_key (on_mouse collidepoint f ev) ev.

End TextField.

(** The shape of the text of a field: characters of [0123456789.-] only, at
    most one dot, and no minus sign after the first character. *)
Definition numeric_text (s : string) : Prop :=
  let l := list_ascii_of_string s in
  Forall (fun c => In c (list_ascii_of_string "0123456789.-")) l /\
  (count_occ ascii_dec l "."%char <= 1)%nat /\
  count_occ ascii_dec (tl l) "-"%char = 0%nat.

(** * Properties *)

(** ** Comparisons, [max], [min] and [clamp] *)

Lemma fgt_spec (a b : R) : reflect (a > b) (fgt a b).
Proof. unfold fgt. destruct (Rgt_dec a b); constructor; assumption. Qed.

Lemma flt_spec (a b : R) : reflect (a < b) (flt a b).
Proof. unfold flt. destruct (Rlt_dec a b); constructor; assumption. Qed.

Lemma fle_spec (a b : R) : reflect (a <= b) (fle a b).
Proof. unfold fle. destruct (Rle_dec a b); constructor; assumption. Qed.

Lemma feq_spec (a b : R) : reflect (a = b) (feq a b).
Proof. unfold feq. destruct (Req_dec_T a b); constructor; assumption. Qed.

(** Case analysis on every float comparison of the goal. *)
Ltac fcases :=
  repeat match goal with
  | |- context [fgt ?a ?b] => destruct (fgt_spec a b)
  | |- context [flt ?a ?b] => destruct (flt_spec a b)
  | |- context [fle ?a ?b] => destruct (fle_spec a b)
  | |- context [feq ?a ?b] => destruct (feq_spec a b)
  end.

Lemma fgt_true (a b : R) : a > b -> fgt a b = true.
Proof. intros H. destruct (fgt_spec a b); [reflexivity | contradiction]. Qed.

Lemma fgt_false (a b : R) : a <= b -> fgt a b = false.
Proof. intros H. destruct (fgt_spec a b); [lra | reflexivity]. Qed.

Lemma fle_true (a b : R) : a <= b -> fle a b = true.
Proof. intros H. destruct (fle_spec a b); [reflexivity | contradiction]. Qed.

Lemma fle_false (a b : R) : b < a -> fle a b = false.
Proof. intros H. destruct (fle_spec a b); [lra | reflexivity]. Qed.

Lemma feq_true (a b : R) : a = b -> feq a b = true.
Proof. intros H. destruct (feq_spec a b); [reflexivity | contradiction]. Qed.

Lemma feq_false (a b : R) : a <> b -> feq a b = false.
Proof. intros H. destruct (feq_spec a b); [contradiction | reflexivity]. Qed.

Lemma fdiv_ok (a b : R) : b <> 0 -> fdiv a b = Ok (a / b).
Proof. intros H. unfold fdiv. now rewrite feq_false. Qed.

Lemma fdiv_zero (a : R) : fdiv a 0 = Raise ZeroDivisionError.
Proof. unfold fdiv. now rewrite feq_true. Qed.

Lemma py_max_Rmax (a b : R) : py_max a b = Rmax a b.
Proof.
  unfold py_max, Rmax. fcases; destruct (Rle_dec a b); lra.
Qed.

Lemma py_min_Rmin (a b : R) : py_min a b = Rmin a b.
Proof.
  unfold py_min, Rmin. fcases; destruct (Rle_dec a b); lra.
Qed.

Lemma clamp_Rmax_Rmin (v a b : R) : clamp v a b = Rmax a (Rmin b v).
Proof. unfold clamp. now rewrite py_max_Rmax, py_min_Rmin. Qed.

Lemma clamp_unit (v : R) : 0 <= clamp v 0.0 1.0 <= 1.
Proof.
  rewrite clamp_Rmax_Rmin. unfold Rmax, Rmin.
  destruct (Rle_dec 1.0 v); destruct (Rle_dec 0.0 _); lra.
Qed.

Lemma clamp_zero : clamp 0.0 0.0 1.0 = 0.
Proof.
  rewrite clamp_Rmax_Rmin. unfold Rmax, Rmin.
  destruct (Rle_dec 1.0 0.0); destruct (Rle_dec 0.0 _); lra.
Qed.

(** ** List indexing from the end *)

Lemma neg_index_1_snoc {A : Type} (l : list A) (a : A) :
  neg_index (l ++ [a]) 1 = Ok a.
Proof. unfold neg_index. now rewrite rev_app_distr. Qed.

Lemma neg_index_2_snoc {A : Type} (l : list A) (a b : A) :
  neg_index (l ++ [a; b]) 2 = Ok a.
Proof. unfold neg_index. now rewrite rev_app_distr. Qed.

Lemma set_last_snoc {A : Type} (l : list A) (a v : A) :
  set_last (l ++ [a]) v = Ok (l ++ [v]).
Proof.
  unfold set_last. rewrite rev_app_distr. cbn [rev app].
  now rewrite rev_involutive.
Qed.

Lemma nil_or_snoc {A : Type} (l : list A) :
  l = [] \/ exists l' a, l = l' ++ [a].
Proof.
  destruct l as [|a l]; [now left | right].
  destruct (exists_last (l := a :: l)) as (l' & b & H); [discriminate|].
  now exists l', b.
Qed.

Lemma snoc_two {A : Type} (l : list A) (a b : A) :
  (l ++ [a]) ++ [b] = l ++ [a; b].
Proof. now rewrite <- app_assoc. Qed.

(** ** Sorted lists that grow at the end *)

Lemma Sorted_snoc {A : Type} (R : A -> A -> Prop) (l : list A) (a b : A) :
  Sorted R (l ++ [a]) -> R a b -> Sorted R (l ++ [a; b]).
Proof.
  induction l as [|c l IH]; intros Hs Hab.
  - repeat constructor. exact Hab.
  - cbn in *. inversion Hs as [|? ? Hs' Hhd]; subst.
    constructor; [now apply IH|].
    destruct l; cbn in *; inversion Hhd; subst; now constructor.
Qed.

Lemma Sorted_app_l {A : Type} (R : A -> A -> Prop) (l l' : list A) :
  Sorted R (l ++ l') -> Sorted R l.
Proof.
  induction l as [|c l IH]; intros Hs; [constructor|].
  cbn in Hs. inversion Hs as [|? ? Hs' Hhd]; subst.
  constructor; [now apply IH|].
  destruct l; [constructor|]. cbn in Hhd. inversion Hhd; subst.
  now constructor.
Qed.

Lemma Sorted_weaken {A : Type} (R S : A -> A -> Prop) (l : list A) :
  (forall a b, R a b -> S a b) -> Sorted R l -> Sorted S l.
Proof.
  intros HRS. induction 1 as [|a l Hs IH Hhd]; constructor; [assumption|].
  destruct Hhd; constructor. now apply HRS.
Qed.

Lemma times_snoc (l : list sample) (s : sample) :
  times (l ++ [s]) = times l ++ [s_t s].
Proof. unfold times. now rewrite map_app. Qed.

Lemma times_snoc_two (l : list sample) (s1 s2 : sample) :
  times (l ++ [s1; s2]) = times l ++ [s_t s1; s_t s2].
Proof. unfold times. now rewrite map_app. Qed.

(** ** The parts of [step] *)

Section StepParts.

Import Projectile.

Variable p : Projectile.obj.

Lemma update_metrics_fields :
  let q := update_metrics p in
  vx q = vx p /\ vy q = vy p /\ x q = x p /\ y q = y p /\ t q = t p /\
  dt q = dt p /\ trajectory q = trajectory p /\ landed q = landed p /\
  mass q = mass p /\ area q = area p /\ air q = air p /\
  flight_time q = flight_time p /\ range q = range p /\
  final_speed q = final_speed p /\
  max_height q = Rmax (max_height p) (y p).
Proof.
  cbv zeta. unfold update_metrics.
  destruct (fgt_spec (y p) (max_height p)); cbn;
    repeat split; unfold Rmax;
    destruct (Rle_dec (max_height p) (y p)); lra.
Qed.

(** The acceleration without drag. *)
Lemma acceleration_free (v : R) :
  air p = false \/ v <= 0 -> acceleration p v = Ok (0.0, - G_EARTH).
Proof.
  intros [H | H]; unfold acceleration.
  - now rewrite H.
  - rewrite (fgt_false v 0 H). now rewrite andb_false_r.
Qed.

(** The acceleration with drag. *)
Lemma acceleration_drag (v : R) :
  air p = true -> 0 < v -> mass p <> 0 ->
  acceleration p v =
    let drag_force := 0.5 * AIR_DENSITY * DRAG_COEFF * area p * v * v in
    Ok (- (drag_force * (vx p / v)) / mass p,
        - (drag_force * (vy p / v)) / mass p - G_EARTH).
Proof.
  intros Ha Hv Hm. unfold acceleration.
  rewrite Ha, (fgt_true v 0) by lra. cbn [andb].
  rewrite !(fdiv_ok _ v) by lra. cbn [bind].
  now rewrite !(fdiv_ok _ (mass p)) by assumption.
Qed.

(** The only exception of [acceleration] is the division by a zero mass,
    in the drag branch. *)
Lemma acceleration_raises (v : R) (e : exn) :
  acceleration p v = Raise e <->
  e = ZeroDivisionError /\ air p = true /\ 0 < v /\ mass p = 0.
Proof.
  split.
  - intros H. destruct (air p) eqn:Ha.
    + destruct (Rlt_dec 0 v) as [Hv | Hv].
      * destruct (Req_dec_T (mass p) 0) as [Hm | Hm].
        -- unfold acceleration in H.
           rewrite Ha, (fgt_true v 0) in H by lra. cbn [andb] in H.
           rewrite !(fdiv_ok _ v) in H by lra. cbn [bind] in H.
           rewrite Hm, fdiv_zero in H. cbn [bind] in H.
           inversion H. repeat split; assumption.
        -- rewrite acceleration_drag in H by assumption. discriminate.
      * rewrite acceleration_free in H by (right; lra). discriminate.
    + rewrite acceleration_free in H by now left. discriminate.
  - intros (-> & Ha & Hv & Hm). unfold acceleration.
    rewrite Ha, (fgt_true v 0) by lra. cbn [andb].
    rewrite !(fdiv_ok _ v) by lra. cbn [bind].
    now rewrite Hm, fdiv_zero.
Qed.

(** The landing branch on a trajectory with two samples at least. *)
Lemma land_snoc (pre : list sample) (t1 x1 y1 t2 x2 y2 : R) :
  trajectory p = pre ++ [(t1, x1, y1); (t2, x2, y2)] ->
  exists p',
    land p = Ok p' /\
    flight_time p' = t1 + crossing_fraction y1 y2 * (t2 - t1) /\
    range p' = x1 + crossing_fraction y1 y2 * (x2 - x1) /\
    final_speed p' = hypot (vx p) (vy p) /\
    landed p' = true /\
    trajectory p'
    = pre ++ [(t1, x1, y1); (flight_time p', range p', 0)] /\
    vx p' = vx p /\ vy p' = vy p /\ x p' = x p /\ y p' = y p /\
    t p' = t p /\ dt p' = dt p /\ mass p' = mass p /\ area p' = area p /\
    air p' = air p /\ max_height p' = max_height p.
Proof.
  intros Ht. unfold land. rewrite Ht.
  rewrite <- snoc_two, neg_index_1_snoc, snoc_two. cbn [bind].
  rewrite neg_index_2_snoc. cbn [bind].
  assert (Hfrac :
    exists f, (if feq y2 y1 then Ok 0.0 else fdiv (0 - y1) (y2 - y1))
              = Ok f /\ clamp f 0.0 1.0 = crossing_fraction y1 y2).
  { unfold crossing_fraction.
    destruct (feq_spec y2 y1) as [He | He];
      destruct (Req_dec_T y2 y1) as [He' | He']; try contradiction.
    - exists 0.0. split; [reflexivity|].
      rewrite clamp_Rmax_Rmin. f_equal; [lra|]. f_equal; lra.
    - exists ((0 - y1) / (y2 - y1)). split; [apply fdiv_ok; lra|].
      rewrite clamp_Rmax_Rmin. f_equal; [lra|]. f_equal; lra. }
  destruct Hfrac as (f & -> & Hf). cbn [bind]. rewrite Hf.
  rewrite <- snoc_two, set_last_snoc, snoc_two. cbn [bind].
  eexists. split; [reflexivity|]. cbn.
  repeat split; try reflexivity.
  replace 0.0 with 0 by lra. reflexivity.
Qed.

End StepParts.

(** ** One call of [step] *)

Section OneStep.

Import Projectile.

Variables p p' : Projectile.obj.
Hypothesis Hflying : landed p = false.

Lemma step_flies (ax ay : R) :
  acceleration p (hypot (vx p) (vy p)) = Ok (ax, ay) ->
  0 < y (integrate p ax ay) ->
  step p = Ok (update_metrics (integrate p ax ay)).
Proof.
  intros Ha Hy. unfold step. rewrite Hflying, Ha. cbn [bind].
  destruct (update_metrics_fields (integrate p ax ay))
    as (_ & _ & _ & Hy' & _).
  rewrite Hy'. now rewrite fle_false.
Qed.

Lemma step_lands (ax ay : R) :
  acceleration p (hypot (vx p) (vy p)) = Ok (ax, ay) ->
  y (integrate p ax ay) <= 0 ->
  step p = land (update_metrics (integrate p ax ay)).
Proof.
  intros Ha Hy. unfold step. rewrite Hflying, Ha. cbn [bind].
  destruct (update_metrics_fields (integrate p ax ay))
    as (_ & _ & _ & Hy' & _).
  rewrite Hy'. now rewrite fle_true.
Qed.

(** What a successful call did. *)
Lemma step_cases :
  step p = Ok p' ->
  exists ax ay,
    acceleration p (hypot (vx p) (vy p)) = Ok (ax, ay) /\
    ((0 < y (integrate p ax ay) /\
      p' = update_metrics (integrate p ax ay)) \/
     (y (integrate p ax ay) <= 0 /\
      land (update_metrics (integrate p ax ay)) = Ok p')).
Proof.
  intros Hs.
  destruct (acceleration p (hypot (vx p) (vy p))) as [[ax ay] | e] eqn:Ha.
  - exists ax, ay. split; [reflexivity|].
    destruct (Rlt_dec 0 (y (integrate p ax ay))) as [Hy | Hy].
    + left. split; [assumption|].
      rewrite (step_flies ax ay Ha Hy) in Hs. now inversion Hs.
    + right. split; [lra|].
      rewrite <- Hs. symmetry. apply step_lands; [assumption | lra].
  - unfold step in Hs. rewrite Hflying, Ha in Hs. discriminate.
Qed.

End OneStep.

(** A landed projectile is not stepped any more. *)
Lemma step_landed (p : Projectile.obj) :
  Projectile.landed p = true -> Projectile.step p = Ok p.
Proof. intros H. unfold Projectile.step. now rewrite H. Qed.

(** ** Invariants of the reachable projectiles *)

Lemma in_flight_init (angle_deg speed mass y0 : R) (air_resistance : bool)
    (color : option Color) (draw : nat) :
  in_flight
    (Projectile.init angle_deg speed mass y0 air_resistance color draw).
Proof.
  unfold in_flight, Projectile.init. cbn.
  split; [reflexivity|]. split; [now exists []|].
  split; [repeat constructor|]. repeat split; lra.
Qed.

Lemma in_flight_step (p p' : Projectile.obj) :
  in_flight p -> Projectile.landed p = false ->
  Projectile.step p = Ok p' -> Projectile.landed p' = false ->
  in_flight p'.
Proof.
  intros (Hdt & (pre & Htr) & Hsorted & Hft & Hrg & Hfs) Hfl Hs Hfl'.
  destruct (step_cases p p' Hfl Hs) as (ax & ay & Ha & [[Hy ->] | [Hy Hl]]).
  - destruct (update_metrics_fields (Projectile.integrate p ax ay))
      as (_ & _ & Ex & Ey & Et & Edt & Etr & _ & _ & _ & _ & Eft & Erg & Efs
          & _).
    unfold in_flight. rewrite Edt, Etr, Ex, Ey, Et, Eft, Erg, Efs. cbn.
    split; [assumption|]. split; [now eexists|].
    split; [|repeat split; assumption].
    rewrite Htr in *. rewrite snoc_two, times_snoc_two.
    rewrite times_snoc in Hsorted.
    apply Sorted_snoc; [assumption|]. cbn. lra.
  - exfalso.
    destruct (update_metrics_fields (Projectile.integrate p ax ay))
      as (_ & _ & _ & _ & _ & _ & Etr & _).
    cbn in Etr. rewrite Htr, snoc_two in Etr.
    destruct (land_snoc _ _ _ _ _ _ _ _ Etr) as (q & Hq & _ & _ & _ & Hld & _).
    rewrite Hq in Hl. inversion Hl; subst. congruence.
Qed.

Lemma step_keeps_flying (p p' : Projectile.obj) :
  Projectile.step p = Ok p' -> Projectile.landed p' = false ->
  Projectile.landed p = false.
Proof.
  intros Hs Hfl'. destruct (Projectile.landed p) eqn:Hfl; [|reflexivity].
  rewrite step_landed in Hs by assumption. inversion Hs; subst. congruence.
Qed.

Lemma reachable_in_flight (p : Projectile.obj) :
  reachable p -> Projectile.landed p = false -> in_flight p.
Proof.
  induction 1 as [| p p' Hr IH Hs]; intros Hfl.
  - apply in_flight_init.
  - pose proof (step_keeps_flying p p' Hs Hfl) as Hp.
    apply (in_flight_step p p'); auto.
Qed.

(** A landed projectile was landed by a call of [step] on a projectile in
    flight. *)
Lemma reachable_landed (p : Projectile.obj) :
  reachable p -> Projectile.landed p = true ->
  exists q, reachable q /\ Projectile.landed q = false /\
            Projectile.step q = Ok p.
Proof.
  induction 1 as [| p p' Hr IH Hs]; intros Hld.
  - discriminate.
  - destruct (Projectile.landed p) eqn:Hfl.
    + rewrite step_landed in Hs by assumption. inversion Hs; subst.
      now apply IH.
    + now exists p.
Qed.

(** ** The integration step (C1) *)

(** C1.  For a projectile in flight, [step] computes the acceleration
    [(0, -9.81)] when the air-resistance flag is off or the speed
    [v = hypot vx vy] is [0], and, when the flag is on and [v > 0], the drag
    [Fd = 0.5 * 1.225 * 0.47 * area * v²] turned into
    [(-(Fd * (vx / v)) / mass, -(Fd * (vy / v)) / mass - 9.81)] (the mass
    being non-zero for the quotient to exist).  With that acceleration it
    updates the velocity, then the position from the new velocity, with
    [dt = 0.01], advances [t] by [dt] and appends the sample [(t, x, y)];
    that sample stays the last one unless the projectile lands. *)
Theorem step_integration (p : Projectile.obj) :
  reachable p -> Projectile.landed p = false ->
  let v := hypot (Projectile.vx p) (Projectile.vy p) in
  let Fd := 0.5 * 1.225 * 0.47 * Projectile.area p * v² in
  (Projectile.air p = false \/ v = 0 ->
   Projectile.acceleration p v = Ok (0, - 9.81)) /\
  (Projectile.air p = true -> v > 0 -> Projectile.mass p <> 0 ->
   Projectile.acceleration p v
   = Ok (- (Fd * (Projectile.vx p / v)) / Projectile.mass p,
         - (Fd * (Projectile.vy p / v)) / Projectile.mass p - 9.81)) /\
  (forall ax ay, Projectile.acceleration p v = Ok (ax, ay) ->
   exists p',
     Projectile.step p = Ok p' /\
     Projectile.vx p' = Projectile.vx p + ax * 0.01 /\
     Projectile.vy p' = Projectile.vy p + ay * 0.01 /\
     Projectile.x p' = Projectile.x p + Projectile.vx p' * 0.01 /\
     Projectile.y p' = Projectile.y p + Projectile.vy p' * 0.01 /\
     Projectile.t p' = Projectile.t p + 0.01 /\
     Projectile.trajectory (Projectile.integrate p ax ay)
     = Projectile.trajectory p
       ++ [(Projectile.t p', Projectile.x p', Projectile.y p')] /\
     (0 < Projectile.y p' ->
      Projectile.trajectory p'
      = Projectile.trajectory p
        ++ [(Projectile.t p', Projectile.x p', Projectile.y p')])).
Proof.
  intros Hr Hfl v Fd.
  destruct (reachable_in_flight p Hr Hfl) as (Hdt & (pre & Htr) & _).
  split; [|split].
  - intros H. rewrite acceleration_free.
    + unfold G_EARTH. apply f_equal, f_equal2; lra.
    + destruct H as [H | H]; [now left | right; lra].
  - intros Ha Hv Hm. rewrite acceleration_drag by (assumption || lra).
    cbv zeta. unfold AIR_DENSITY, DRAG_COEFF, G_EARTH, Fd, Rsqr.
    apply f_equal, f_equal2; lra.
  - intros ax ay Ha.
    destruct (update_metrics_fields (Projectile.integrate p ax ay))
      as (Evx & Evy & Ex & Ey & Et & _ & Etr & _).
    destruct (Rlt_dec 0 (Projectile.y (Projectile.integrate p ax ay)))
      as [Hy | Hy].
    + exists (Projectile.update_metrics (Projectile.integrate p ax ay)).
      split; [now apply step_flies|].
      rewrite Evx, Evy, Ex, Ey, Et, Etr. cbn. rewrite Hdt.
      repeat split; reflexivity.
    + assert (Hy' : Projectile.y (Projectile.integrate p ax ay) <= 0) by lra.
      rewrite (step_lands p Hfl ax ay Ha Hy').
      cbn in Etr. rewrite Htr, snoc_two in Etr.
      destruct (land_snoc _ _ _ _ _ _ _ _ Etr)
        as (p' & Hl & _ & _ & _ & _ & _ & Lvx & Lvy & Lx & Ly & Lt & _).
      exists p'. split; [assumption|].
      rewrite Lvx, Lvy, Lx, Ly, Lt, Evx, Evy, Ex, Ey, Et. cbn. rewrite Hdt.
      cbn in Hy'. rewrite Hdt in Hy'.
      repeat split; try reflexivity. intros Hpos. lra.
Qed.

Lemma step_integration_witness :
  let p := Projectile.init 45 25 1 0 false None 0 in
  reachable p /\ Projectile.landed p = false /\
  Projectile.acceleration p (hypot (Projectile.vx p) (Projectile.vy p))
  = Ok (0, - 9.81).
Proof.
  intros p. split; [constructor|]. split; [reflexivity|].
  apply (proj1 (step_integration p (reach_init 45 25 1 0 false None 0%nat)
                  eq_refl)).
  left. reflexivity.
Defined.

(** ** Landing (C2) *)

Lemma crossing_fraction_unit (y1 y2 : R) : 0 <= crossing_fraction y1 y2 <= 1.
Proof.
  unfold crossing_fraction, Rmax, Rmin.
  destruct (Req_dec_T y2 y1); destruct (Rle_dec 1 _); destruct (Rle_dec 0 _);
    lra.
Qed.

Lemma crossing_fraction_degenerate (y : R) : crossing_fraction y y = 0.
Proof.
  unfold crossing_fraction, Rmax, Rmin.
  destruct (Req_dec_T y y); [|contradiction].
  destruct (Rle_dec 1 0); destruct (Rle_dec 0 _); lra.
Qed.

Lemma crossing_fraction_from_ground (y2 : R) : crossing_fraction 0 y2 = 0.
Proof.
  unfold crossing_fraction.
  destruct (Req_dec_T y2 0) as [-> | Hy].
  - unfold Rmax, Rmin. destruct (Rle_dec 1 0); destruct (Rle_dec 0 _); lra.
  - replace ((0 - 0) / (y2 - 0)) with 0 by (field; lra).
    unfold Rmax, Rmin. destruct (Rle_dec 1 0); destruct (Rle_dec 0 _); lra.
Qed.

(** C2.  When the sample produced by a call of [step] has [y <= 0], the
    projectile lands.  With [(t1, x1, y1)] and [(t2, x2, y2)] the last two
    samples of the trajectory (the former last sample and the new one), the
    crossing fraction is [(0 - y1) / (y2 - y1)] clamped to [[0, 1]], or [0]
    when [y2 = y1]; [flight_time] and [range] are interpolated with it,
    [final_speed] is [hypot vx vy] of the velocity just integrated, [landed]
    is set and the last sample becomes [(flight_time, range, 0)]. *)
Theorem step_landing (p : Projectile.obj) (ax ay : R) :
  reachable p -> Projectile.landed p = false ->
  Projectile.acceleration p (hypot (Projectile.vx p) (Projectile.vy p))
  = Ok (ax, ay) ->
  Projectile.y (Projectile.integrate p ax ay) <= 0 ->
  exists pre t1 x1 y1 t2 x2 y2 p',
    Projectile.trajectory (Projectile.integrate p ax ay)
    = pre ++ [(t1, x1, y1); (t2, x2, y2)] /\
    Projectile.trajectory p = pre ++ [(t1, x1, y1)] /\
    (t2, x2, y2)
    = (Projectile.t p + 0.01,
       Projectile.x (Projectile.integrate p ax ay),
       Projectile.y (Projectile.integrate p ax ay)) /\
    Projectile.step p = Ok p' /\
    let frac :=
      Rmax 0 (Rmin 1 (if Req_dec_T y2 y1 then 0
                      else (0 - y1) / (y2 - y1))) in
    Projectile.flight_time p' = t1 + frac * (t2 - t1) /\
    Projectile.range p' = x1 + frac * (x2 - x1) /\
    Projectile.final_speed p'
    = hypot (Projectile.vx p + ax * 0.01) (Projectile.vy p + ay * 0.01) /\
    Projectile.vx p' = Projectile.vx p + ax * 0.01 /\
    Projectile.vy p' = Projectile.vy p + ay * 0.01 /\
    Projectile.landed p' = true /\
    Projectile.trajectory p'
    = pre ++ [(t1, x1, y1);
              (Projectile.flight_time p', Projectile.range p', 0)].
Proof.
  intros Hr Hfl Ha Hy.
  destruct (reachable_in_flight p Hr Hfl) as (Hdt & (pre & Htr) & _).
  destruct (update_metrics_fields (Projectile.integrate p ax ay))
    as (Evx & Evy & _ & _ & _ & _ & Etr & _).
  pose proof Etr as Etr'. cbn in Etr'. rewrite Htr, snoc_two in Etr'.
  destruct (land_snoc _ _ _ _ _ _ _ _ Etr')
    as (p' & Hl & Hft & Hrg & Hfs & Hld & Htr' & Lvx & Lvy & _).
  exists pre, (Projectile.t p), (Projectile.x p), (Projectile.y p).
  do 3 eexists. exists p'.
  split; [cbn; rewrite Htr, snoc_two; reflexivity|].
  split; [assumption|].
  split; [cbn; rewrite Hdt; reflexivity|].
  split; [now rewrite (step_lands p Hfl ax ay Ha Hy)|].
  cbv zeta. fold (crossing_fraction (Projectile.y p)
    (Projectile.y p + (Projectile.vy p + ay * Projectile.dt p)
                      * Projectile.dt p)).
  rewrite Hft, Hrg, Hfs, Lvx, Lvy, Evx, Evy. cbn. rewrite Hdt.
  repeat split; try reflexivity; try assumption.
  rewrite Htr'. rewrite Hft, Hrg. rewrite Hdt. reflexivity.
Qed.

Lemma step_landing_witness :
  let p := Projectile.init 0 0 1 0 false None 0 in
  reachable p /\ Projectile.landed p = false /\
  exists p', Projectile.step p = Ok p' /\ Projectile.landed p' = true.
Proof.
  intros p.
  assert (Hr : reachable p) by constructor.
  assert (Ha : Projectile.acceleration p
                 (hypot (Projectile.vx p) (Projectile.vy p))
               = Ok (0.0, - G_EARTH)) by (apply acceleration_free; now left).
  assert (Hy : Projectile.y (Projectile.integrate p 0.0 (- G_EARTH)) <= 0).
  { unfold p, Projectile.init, Projectile.integrate, G_EARTH.
    cbn [Projectile.y Projectile.vy Projectile.dt]. lra. }
  split; [exact Hr|]. split; [reflexivity|].
  destruct (step_landing p 0.0 (- G_EARTH) Hr eq_refl Ha Hy)
    as (pre & t1 & x1 & y1 & t2 & x2 & y2 & p' & _ & _ & _ & Hs & H).
  exists p'. split; [exact Hs|]. apply H.
Defined.

(** ** Landed projectiles (C3) *)

(** How a reachable landed projectile came to land. *)
Lemma landed_facts (p : Projectile.obj) :
  reachable p -> Projectile.landed p = true ->
  exists q pre t1 x1 y1,
    reachable q /\ Projectile.landed q = false /\
    Projectile.step q = Ok p /\
    Projectile.trajectory q = pre ++ [(t1, x1, y1)] /\
    strictly_increasing (times (pre ++ [(t1, x1, y1)])) /\
    Projectile.trajectory p
    = pre ++ [(t1, x1, y1);
              (Projectile.flight_time p, Projectile.range p, 0)] /\
    Projectile.t p = t1 + 0.01 /\
    t1 <= Projectile.flight_time p <= Projectile.t p /\
    Projectile.y p <= 0.
Proof.
  intros Hr Hld.
  destruct (reachable_landed p Hr Hld) as (q & Hrq & Hfl & Hs).
  destruct (reachable_in_flight q Hrq Hfl)
    as (Hdt & (pre & Htr) & Hsorted & _).
  destruct (step_cases q p Hfl Hs) as (ax & ay & Ha & [[Hy ->] | [Hy Hl]]).
  - destruct (update_metrics_fields (Projectile.integrate q ax ay))
      as (_ & _ & _ & _ & _ & _ & _ & E & _).
    rewrite E in Hld. cbn in Hld. congruence.
  - destruct (update_metrics_fields (Projectile.integrate q ax ay))
      as (_ & _ & _ & Ey & Et & _ & Etr & _).
    cbn in Etr. rewrite Htr, snoc_two in Etr.
    destruct (land_snoc _ _ _ _ _ _ _ _ Etr)
      as (p' & Hl' & Hft & _ & _ & _ & Htr' & _ & _ & _ & Ly & Lt & _).
    rewrite Hl' in Hl. inversion Hl; subst p'. clear Hl.
    exists q, pre, (Projectile.t q), (Projectile.x q), (Projectile.y q).
    rewrite Htr in Hsorted.
    repeat (split; [assumption|]).
    rewrite Lt, Et, Ly, Ey. cbn [Projectile.t Projectile.integrate].
    rewrite Hdt. split; [reflexivity|]. split; [|exact Hy].
    rewrite Hft.
    pose proof (crossing_fraction_unit (Projectile.y q)
      (Projectile.y q + (Projectile.vy q + ay * Projectile.dt q)
                        * Projectile.dt q)) as Hf.
    rewrite Hdt in *. nra.
Qed.

Lemma at_rest_lands :
  exists p', Projectile.step at_rest = Ok p' /\ Projectile.landed p' = true.
Proof.
  assert (Ha : Projectile.acceleration at_rest
                 (hypot (Projectile.vx at_rest) (Projectile.vy at_rest))
               = Ok (0.0, - G_EARTH)) by (apply acceleration_free; now left).
  assert (Hy : Projectile.y (Projectile.integrate at_rest 0.0 (- G_EARTH))
               <= 0).
  { unfold at_rest, Projectile.init, Projectile.integrate, G_EARTH.
    cbn [Projectile.y Projectile.vy Projectile.dt]. lra. }
  rewrite (step_lands at_rest eq_refl _ _ Ha Hy).
  destruct (update_metrics_fields
              (Projectile.integrate at_rest 0.0 (- G_EARTH)))
    as (_ & _ & _ & _ & _ & _ & Etr & _).
  change (Projectile.trajectory
            (Projectile.integrate at_rest 0.0 (- G_EARTH)))
    with ([] ++ [(0.0, 0.0, 0);
                 (Projectile.t (Projectile.integrate at_rest 0.0 (- G_EARTH)),
                  Projectile.x (Projectile.integrate at_rest 0.0 (- G_EARTH)),
                  Projectile.y (Projectile.integrate at_rest 0.0 (- G_EARTH)))])
    in Etr.
  destruct (land_snoc _ _ _ _ _ _ _ _ Etr) as (p' & Hl & _ & _ & _ & Hld & _).
  now exists p'.
Qed.

(** C3.  A landed projectile is left as it is by [step]: the result is the
    very same state, trajectory included.  The last sample of its trajectory
    has [y = 0], and [flight_time] lies between the times of the last two
    samples recorded before the landing: [s1], the second-to-last one, which
    is still in the trajectory, and [s2], the last one, which the landing
    sample replaced. *)
Theorem landed_projectile (p : Projectile.obj) :
  reachable p -> Projectile.landed p = true ->
  Projectile.step p = Ok p /\
  (exists s, neg_index (Projectile.trajectory p) 1 = Ok s /\ s_y s = 0) /\
  exists q ax ay pre s1 s2,
    reachable q /\ Projectile.landed q = false /\
    Projectile.acceleration q (hypot (Projectile.vx q) (Projectile.vy q))
    = Ok (ax, ay) /\
    Projectile.trajectory (Projectile.integrate q ax ay)
    = pre ++ [s1; s2] /\
    Projectile.step q = Ok p /\
    Projectile.trajectory p
    = pre ++ [s1; (Projectile.flight_time p, Projectile.range p, 0)] /\
    s_t s1 <= Projectile.flight_time p <= s_t s2.
Proof.
  intros Hr Hld. split; [now apply step_landed|].
  destruct (landed_facts p Hr Hld)
    as (q & pre & t1 & x1 & y1 & Hrq & Hfl & Hs & Htr & _ & Htr' & Ht & Hb
        & _).
  split.
  - exists (Projectile.flight_time p, Projectile.range p, 0).
    rewrite Htr', <- snoc_two, neg_index_1_snoc. now split.
  - destruct (step_cases q p Hfl Hs) as (ax & ay & Ha & Hc).
    destruct (reachable_in_flight q Hrq Hfl) as (Hdt & (pre' & Htq) & _).
    assert (Et : Projectile.t p = Projectile.t q + 0.01).
    { destruct Hc as [[_ ->] | [_ Hl]].
      - destruct (update_metrics_fields (Projectile.integrate q ax ay))
          as (_ & _ & _ & _ & -> & _). cbn. now rewrite Hdt.
      - destruct (update_metrics_fields (Projectile.integrate q ax ay))
          as (_ & _ & _ & _ & Et & _ & Etr & _).
        cbn in Etr. rewrite Htq, snoc_two in Etr.
        destruct (land_snoc _ _ _ _ _ _ _ _ Etr)
          as (p' & Hl' & _ & _ & _ & _ & _ & _ & _ & _ & _ & Lt & _).
        rewrite Hl' in Hl. inversion Hl; subst p'.
        rewrite Lt, Et. cbn. now rewrite Hdt. }
    exists q, ax, ay, pre, (t1, x1, y1),
      (Projectile.t q + 0.01,
       Projectile.x (Projectile.integrate q ax ay),
       Projectile.y (Projectile.integrate q ax ay)).
    repeat (split; [first [assumption | reflexivity] |]).
    split; [cbn; now rewrite Htr, snoc_two, Hdt|].
    split; [assumption|]. split; [assumption|].
    cbn [s_t fst]. lra.
Qed.

Lemma landed_projectile_witness :
  exists p, reachable p /\ Projectile.landed p = true /\
            Projectile.step p = Ok p.
Proof.
  destruct at_rest_lands as (p & Hs & Hld).
  assert (Hr : reachable p)
    by (apply (reach_step at_rest); [constructor | exact Hs]).
  exists p. split; [exact Hr|]. split; [exact Hld|].
  apply (landed_projectile p Hr Hld).
Defined.

(** ** The trajectory only grows, in increasing time (C4) *)

(** A successful call of [step] keeps the samples recorded before it. *)
Lemma step_grows (p p' : Projectile.obj) :
  Projectile.step p = Ok p' -> grown p p'.
Proof.
  intros Hs. unfold grown.
  destruct (Projectile.landed p) eqn:Hfl.
  - rewrite step_landed in Hs by assumption. inversion Hs; subst.
    exists []. now rewrite app_nil_r.
  - destruct (step_cases p p' Hfl Hs) as (ax & ay & Ha & [[Hy ->] | [Hy Hl]]);
      destruct (update_metrics_fields (Projectile.integrate p ax ay))
        as (_ & _ & _ & _ & _ & _ & Etr & _).
    + rewrite Etr. cbn. now eexists.
    + cbn [Projectile.trajectory Projectile.integrate] in Etr.
      destruct (nil_or_snoc (Projectile.trajectory p))
        as [Htr | (pre & [[t1 x1] y1] & Htr)]; rewrite Htr in *.
      * unfold Projectile.land in Hl. rewrite Etr in Hl. discriminate.
      * rewrite snoc_two in Etr.
        destruct (land_snoc _ _ _ _ _ _ _ _ Etr)
          as (q & Hq & _ & _ & _ & _ & Htr' & _).
        rewrite Hq in Hl. inversion Hl; subst q.
        rewrite Htr', <- snoc_two. now eexists.
Qed.

Lemma grown_trans (p q r : Projectile.obj) :
  grown p q -> grown q r -> grown p r.
Proof.
  intros [m1 H1] [m2 H2]. exists (m1 ++ m2).
  now rewrite H2, H1, app_assoc.
Qed.

Lemma run_grows (n : nat) (p q : Projectile.obj) :
  Projectile.run n p = Ok q -> grown p q.
Proof.
  revert p. induction n as [|n IH]; intros p Hrun; cbn in Hrun.
  - inversion Hrun; subst. exists []. now rewrite app_nil_r.
  - destruct (Projectile.step p) as [p' | e] eqn:Hs; [|discriminate].
    cbn in Hrun. apply (grown_trans p p' q); [now apply step_grows|].
    now apply IH.
Qed.

Lemma run_reachable (n : nat) (p q : Projectile.obj) :
  reachable p -> Projectile.run n p = Ok q -> reachable q.
Proof.
  revert p. induction n as [|n IH]; intros p Hr Hrun; cbn in Hrun.
  - now inversion Hrun; subst.
  - destruct (Projectile.step p) as [p' | e] eqn:Hs; [|discriminate].
    cbn in Hrun. apply (IH p'); [|assumption].
    now apply (reach_step p).
Qed.

(** The times of a reachable trajectory: strictly increasing up to the last
    sample, which is not earlier than the sample before it. *)
Lemma reachable_times (p : Projectile.obj) :
  reachable p ->
  increasing (times (Projectile.trajectory p)) /\
  strictly_increasing (times (removelast (Projectile.trajectory p))) /\
  (Projectile.landed p = false ->
   strictly_increasing (times (Projectile.trajectory p))).
Proof.
  intros Hr. unfold increasing. destruct (Projectile.landed p) eqn:Hfl.
  - destruct (landed_facts p Hr Hfl)
      as (q & pre & t1 & x1 & y1 & _ & _ & _ & _ & Hsorted & -> & _ & Hb & _).
    split; [|split; [|discriminate]].
    + rewrite times_snoc_two. rewrite times_snoc in Hsorted.
      apply Sorted_snoc.
      * apply (Sorted_weaken Rlt Rle); [intros; lra | assumption].
      * cbn. lra.
    + rewrite <- snoc_two, removelast_last. exact Hsorted.
  - destruct (reachable_in_flight p Hr Hfl) as (_ & (pre & Htr) & Hsorted & _).
    split; [|split; [|intros _; exact Hsorted]].
    + apply (Sorted_weaken Rlt Rle); [intros; lra | assumption].
    + rewrite Htr in *. rewrite removelast_last.
      rewrite times_snoc in Hsorted.
      apply (Sorted_app_l Rlt _ _ Hsorted).
Qed.

(** C4.  Whatever the number of calls of [step] on a projectile, the
    trajectory after them starts with the trajectory before them, sample for
    sample and in the same order (it only grew), and its times are
    monotonically increasing: no sample is earlier than the one before it.
    Up to the last sample the times increase strictly, and so does the whole
    trajectory while the projectile is in flight; only the landing sample
    can carry the time of the sample before it. *)
Theorem trajectory_append_only (n : nat) (p q : Projectile.obj) :
  reachable p -> Projectile.run n p = Ok q ->
  (exists more,
     Projectile.trajectory q = Projectile.trajectory p ++ more) /\
  increasing (times (Projectile.trajectory q)) /\
  strictly_increasing (times (removelast (Projectile.trajectory q))) /\
  (Projectile.landed q = false ->
   strictly_increasing (times (Projectile.trajectory q))).
Proof.
  intros Hr Hrun. split.
  - exact (run_grows n p q Hrun).
  - apply reachable_times. exact (run_reachable n p q Hr Hrun).
Qed.

Lemma trajectory_append_only_witness :
  exists q,
    reachable at_rest /\ Projectile.run 1 at_rest = Ok q /\
    increasing (times (Projectile.trajectory q)).
Proof.
  destruct at_rest_lands as (q & Hs & _).
  assert (Hr : reachable at_rest) by constructor.
  assert (Hrun : Projectile.run 1 at_rest = Ok q)
    by (cbn [Projectile.run]; rewrite Hs; reflexivity).
  exists q. split; [exact Hr|]. split; [exact Hrun|].
  exact (proj1 (proj2 (trajectory_append_only 1 at_rest q Hr Hrun))).
Defined.

(** ** The cross-sectional area *)

Lemma derive_area_positive (m : R) :
  0 < m / 1000 ->
  Projectile.derive_area m
  = Ok (PI * Rpower (3 * (m / 1000) / (4 * PI)) (1 / 3)
           * Rpower (3 * (m / 1000) / (4 * PI)) (1 / 3)).
Proof.
  intros Hm. unfold Projectile.derive_area.
  rewrite fdiv_ok by lra. cbn [bind].
  replace (m / 1000.0) with (m / 1000) by lra.
  rewrite fle_false by lra.
  rewrite fdiv_ok by (pose proof PI_RGT_0; lra). cbn [bind].
  unfold fpow. replace (1.0 / 3.0) with (1 / 3) by lra. reflexivity.
Qed.

Lemma derive_area_fallback (m : R) :
  m <= 0 -> Projectile.derive_area m = Ok 0.01.
Proof.
  intros Hm. unfold Projectile.derive_area.
  rewrite fdiv_ok by lra. cbn [bind].
  rewrite fle_true by lra. reflexivity.
Qed.

(** ** The bounds of the scene (C6, C7) *)

Lemma largest_default (a d : R) (l : list R) :
  largest (Rmax d a) l = Rmax a (largest d l).
Proof.
  unfold largest. induction l as [|b l IH]; cbn [fold_right].
  - apply Rmax_comm.
  - rewrite IH. rewrite !Rmax_assoc. f_equal. apply Rmax_comm.
Qed.

Lemma largest_cons (d a : R) (l : list R) :
  largest d (a :: l) = Rmax a (largest d l).
Proof. reflexivity. Qed.

Lemma largest_swap (d : R) (l1 l2 : list R) :
  largest (largest d l1) l2 = largest (largest d l2) l1.
Proof.
  induction l1 as [|a l1 IH]; [reflexivity|].
  rewrite !largest_cons, (Rmax_comm a), largest_default. now rewrite IH.
Qed.

Lemma largest_app (d : R) (l1 l2 : list R) :
  largest d (l1 ++ l2) = largest (largest d l1) l2.
Proof.
  unfold largest at 1. rewrite fold_right_app.
  fold (largest d l2). fold (largest (largest d l2) l1).
  apply largest_swap.
Qed.

Lemma largest_le_iff (d v : R) (l : list R) :
  largest d l <= v <-> d <= v /\ Forall (fun a => a <= v) l.
Proof.
  induction l as [|a l IH]; [cbn | rewrite largest_cons].
  - split; [intros H; split; [exact H | constructor] | intros [H _]; exact H].
  - split.
    + intros H. pose proof (Rmax_l a (largest d l)).
      pose proof (Rmax_r a (largest d l)).
      assert (Hl : largest d l <= v) by lra.
      apply IH in Hl. destruct Hl as [Hd Hl].
      split; [exact Hd|]. constructor; [lra | exact Hl].
    + intros [Hd Hl]. inversion Hl; subst.
      apply Rmax_lub; [assumption|]. apply IH. now split.
Qed.

Lemma largest_ge_default (d : R) (l : list R) : d <= largest d l.
Proof. apply (largest_le_iff d (largest d l) l). lra. Qed.

Lemma largest_ge_In (d a : R) (l : list R) : In a l -> a <= largest d l.
Proof.
  intros Hin.
  assert (H : largest d l <= largest d l) by lra.
  apply largest_le_iff in H. destruct H as [_ H].
  rewrite Forall_forall in H. now apply H.
Qed.

Lemma largest_attained (d : R) (l : list R) :
  largest d l = d \/ In (largest d l) l.
Proof.
  induction l as [|a l IH]; [now left | rewrite largest_cons].
  unfold Rmax. destruct (Rle_dec a (largest d l)).
  - destruct IH as [IH | IH]; [now left | right; now right].
  - right. now left.
Qed.

Lemma largest_incl (d : R) (l l' : list R) :
  incl l l' -> largest d l <= largest d l'.
Proof.
  intros Hincl. apply largest_le_iff. split.
  - apply largest_ge_default.
  - apply Forall_forall. intros a Ha. apply largest_ge_In. now apply Hincl.
Qed.

Lemma scan_sample_Rmax (mx my : R) (s : sample) :
  ProjectileApp.scan_sample (mx, my) s = (Rmax mx (s_x s), Rmax my (s_y s)).
Proof.
  destruct s as [[t x] y]. unfold ProjectileApp.scan_sample. cbn.
  f_equal; unfold Rmax; fcases; destruct (Rle_dec _ _); lra.
Qed.

Lemma scan_samples (l : list sample) (mx my : R) :
  fold_left ProjectileApp.scan_sample l (mx, my)
  = (largest mx (map s_x l), largest my (map s_y l)).
Proof.
  revert mx my. induction l as [|s l IH]; intros mx my; cbn [fold_left map].
  - reflexivity.
  - rewrite scan_sample_Rmax, IH, !largest_cons.
    now rewrite !largest_default.
Qed.

Lemma scan_projectiles (ps : list Projectile.obj) (mx my : R) :
  fold_left ProjectileApp.scan_trajectory ps (mx, my)
  = (largest mx (map s_x (all_samples ps)),
     largest my (map s_y (all_samples ps))).
Proof.
  revert mx my. induction ps as [|p ps IH]; intros mx my;
    cbn [fold_left all_samples flat_map map].
  - reflexivity.
  - unfold ProjectileApp.scan_trajectory at 2. rewrite scan_samples, IH.
    fold (all_samples ps). now rewrite !map_app, !largest_app.
Qed.

Lemma compute_bounds_largest (ps : list Projectile.obj) :
  ProjectileApp.compute_bounds ps
  = (Rmax (largest 10 (map s_x (all_samples ps)) * 1.2) 0.001,
     Rmax (largest 5 (map s_y (all_samples ps)) * 1.2) 0.001).
Proof.
  unfold ProjectileApp.compute_bounds.
  replace 10.0 with 10 by lra. replace 5.0 with 5 by lra.
  rewrite scan_projectiles. rewrite !py_max_Rmax.
  replace 1e-3 with 0.001 by lra. reflexivity.
Qed.

Lemma compute_bounds_padded (ps : list Projectile.obj) :
  ProjectileApp.compute_bounds ps
  = (largest 10 (map s_x (all_samples ps)) * 1.2,
     largest 5 (map s_y (all_samples ps)) * 1.2).
Proof.
  rewrite compute_bounds_largest.
  pose proof (largest_ge_default 10 (map s_x (all_samples ps))).
  pose proof (largest_ge_default 5 (map s_y (all_samples ps))).
  f_equal; apply Rmax_left; lra.
Qed.

Lemma In_all_samples (ps : list Projectile.obj) (p : Projectile.obj)
    (s : sample) :
  In p ps -> In s (Projectile.trajectory p) -> In s (all_samples ps).
Proof.
  intros Hp Hs. unfold all_samples. apply in_flat_map. now exists p.
Qed.

(** C6.  [compute_bounds] is [(max(10, largest x) * 1.2,
    max(5, largest y) * 1.2)], each floored to [0.001], where the largest [x]
    and the largest [y] range over every sample of every trajectory of the
    collection, whether the projectile has landed or not: [mx] is not below
    [10] nor below the [x] of any sample, and it is [10] or the [x] of some
    sample (and so for [my] and [5]).  The floor never changes the result.
    After [clear_all] the collection is empty, nothing is selected and the
    bounds are [(12, 6)]. *)
Theorem compute_bounds_spec (ps : list Projectile.obj) :
  let mx := largest 10 (map s_x (all_samples ps)) in
  let my := largest 5 (map s_y (all_samples ps)) in
  ProjectileApp.compute_bounds ps
  = (Rmax (mx * 1.2) 0.001, Rmax (my * 1.2) 0.001) /\
  ProjectileApp.compute_bounds ps = (mx * 1.2, my * 1.2) /\
  (10 <= mx /\ 5 <= my) /\
  (forall p s, In p ps -> In s (Projectile.trajectory p) ->
               s_x s <= mx /\ s_y s <= my) /\
  (mx = 10 \/
   exists p s, In p ps /\ In s (Projectile.trajectory p) /\ s_x s = mx) /\
  (my = 5 \/
   exists p s, In p ps /\ In s (Projectile.trajectory p) /\ s_y s = my) /\
  (forall app,
     ProjectileApp.projectiles (ProjectileApp.clear_all app) = [] /\
     ProjectileApp.selected_index (ProjectileApp.clear_all app) = None /\
     ProjectileApp.compute_bounds
       (ProjectileApp.projectiles (ProjectileApp.clear_all app))
     = (12, 6)).
Proof.
  cbv zeta.
  split; [apply compute_bounds_largest|].
  split; [apply compute_bounds_padded|].
  split; [split; apply largest_ge_default|].
  split; [|split; [|split]].
  - intros p s Hp Hs. pose proof (In_all_samples ps p s Hp Hs) as Hin.
    split; apply largest_ge_In; now apply in_map.
  - destruct (largest_attained 10 (map s_x (all_samples ps))) as [H | H];
      [now left | right].
    apply in_map_iff in H. destruct H as (s & Hs & Hin).
    apply in_flat_map in Hin. destruct Hin as (p & Hp & Hin).
    now exists p, s.
  - destruct (largest_attained 5 (map s_y (all_samples ps))) as [H | H];
      [now left | right].
    apply in_map_iff in H. destruct H as (s & Hs & Hin).
    apply in_flat_map in Hin. destruct Hin as (p & Hp & Hin).
    now exists p, s.
  - intros app. split; [reflexivity|]. split; [reflexivity|].
    cbn [ProjectileApp.projectiles ProjectileApp.clear_all].
    rewrite compute_bounds_padded. cbn [all_samples flat_map map largest
      fold_right].
    f_equal; lra.
Qed.

Lemma all_samples_grown (ps ps' : list Projectile.obj) :
  Forall2 grown ps ps' -> incl (all_samples ps) (all_samples ps').
Proof.
  induction 1 as [|p p' ps ps' [more Hg] _ IH]; cbn [all_samples flat_map].
  - apply incl_refl.
  - rewrite Hg. apply incl_app.
    + apply incl_appl, incl_appl, incl_refl.
    + apply incl_appr, IH.
Qed.

Lemma step_all_grown (ps ps' : list Projectile.obj) :
  ProjectileApp.step_all ps = Ok ps' -> Forall2 grown ps ps'.
Proof.
  revert ps'. induction ps as [|p ps IH]; intros ps' Hs; cbn in Hs.
  - inversion Hs. constructor.
  - destruct (Projectile.landed p) eqn:Hfl; cbn [negb bind] in Hs.
    + destruct (ProjectileApp.step_all ps) as [qs | e]; [|discriminate].
      cbn in Hs. inversion Hs; subst. constructor; [|now apply IH].
      exists []. now rewrite app_nil_r.
    + destruct (Projectile.step p) as [p' | e] eqn:Hp; [|discriminate].
      cbn [bind] in Hs.
      destruct (ProjectileApp.step_all ps) as [qs | e]; [|discriminate].
      cbn in Hs. inversion Hs; subst. constructor; [|now apply IH].
      now apply step_grows.
Qed.

Lemma bounds_grow (ps ps' : list Projectile.obj) :
  Forall2 grown ps ps' ->
  bounds_le (ProjectileApp.compute_bounds ps)
            (ProjectileApp.compute_bounds ps').
Proof.
  intros Hg. apply all_samples_grown in Hg.
  rewrite !compute_bounds_padded. unfold bounds_le. cbn [fst snd].
  assert (Hx : largest 10 (map s_x (all_samples ps))
               <= largest 10 (map s_x (all_samples ps')))
    by (apply largest_incl, incl_map, Hg).
  assert (Hy : largest 5 (map s_y (all_samples ps))
               <= largest 5 (map s_y (all_samples ps')))
    by (apply largest_incl, incl_map, Hg).
  lra.
Qed.

(** C7.  When the trajectories of a collection of projectiles only grow by
    appended samples, neither component of [compute_bounds] decreases.  This
    is so in particular across [update], which steps the projectiles in
    flight. *)
Theorem compute_bounds_monotone :
  (forall ps ps', Forall2 grown ps ps' ->
     bounds_le (ProjectileApp.compute_bounds ps)
               (ProjectileApp.compute_bounds ps')) /\
  (forall app app', ProjectileApp.update app = Ok app' ->
     bounds_le
       (ProjectileApp.compute_bounds (ProjectileApp.projectiles app))
       (ProjectileApp.compute_bounds (ProjectileApp.projectiles app'))).
Proof.
  split; [exact bounds_grow|].
  intros app app' Hu. unfold ProjectileApp.update in Hu.
  destruct (ProjectileApp.is_playing app).
  - destruct (ProjectileApp.step_all (ProjectileApp.projectiles app))
      as [ps | e] eqn:Hs; [|discriminate].
    cbn in Hu. inversion Hu; subst. cbn [ProjectileApp.projectiles].
    apply bounds_grow. now apply step_all_grown.
  - inversion Hu; subst. unfold bounds_le. lra.
Qed.

(** ** The metrics before landing (C8) *)

Lemma radians_90 : radians 90 = PI / 2.
Proof. unfold radians. lra. Qed.

Lemma radians_minus_90 : radians (-90) = - (PI / 2).
Proof. unfold radians. lra. Qed.

Lemma rising_step :
  Projectile.step rising
  = Ok (Projectile.update_metrics
          (Projectile.integrate rising 0.0 (- G_EARTH))) /\
  Projectile.y (Projectile.integrate rising 0.0 (- G_EARTH)) = 0.099019.
Proof.
  assert (Hy : Projectile.y (Projectile.integrate rising 0.0 (- G_EARTH))
               = 0.099019).
  { unfold rising, Projectile.init, Projectile.integrate, G_EARTH.
    cbn [Projectile.y Projectile.vy Projectile.dt].
    rewrite radians_90, sin_PI2. lra. }
  split; [|exact Hy].
  apply step_flies; [reflexivity | | lra].
  apply acceleration_free. now left.
Qed.

(** C8, as stated, fails: a call of [step] that does not land the projectile
    changes its maximum height. *)
Lemma max_height_moves_in_flight :
  exists p',
    reachable rising /\ Projectile.landed rising = false /\
    Projectile.step rising = Ok p' /\ Projectile.landed p' = false /\
    Projectile.max_height p' <> Projectile.max_height rising.
Proof.
  destruct rising_step as [Hs Hy].
  eexists. split; [constructor|]. split; [reflexivity|].
  split; [exact Hs|].
  destruct (update_metrics_fields
              (Projectile.integrate rising 0.0 (- G_EARTH)))
    as (_ & _ & _ & _ & _ & _ & _ & Hld & _ & _ & _ & _ & _ & _ & Hmax).
  split; [rewrite Hld; reflexivity|].
  rewrite Hmax, Hy.
  cbn [Projectile.max_height Projectile.integrate rising Projectile.init].
  unfold Rmax. destruct (Rle_dec 0 0.099019); lra.
Qed.

(** C8, amended.  While a projectile is in flight, its flight time, range
    and final speed have their initial value [0]: a call of [step] that does
    not land it leaves them there.  The maximum height is a running maximum:
    every call of [step] on a projectile in flight raises it to the new [y]
    when that is higher. *)
Theorem metrics_until_landing (p : Projectile.obj) :
  reachable p -> Projectile.landed p = false ->
  Projectile.flight_time p = 0 /\ Projectile.range p = 0 /\
  Projectile.final_speed p = 0 /\
  forall p', Projectile.step p = Ok p' ->
    Projectile.max_height p'
    = Rmax (Projectile.max_height p) (Projectile.y p') /\
    (Projectile.landed p' = false ->
     Projectile.flight_time p' = 0 /\ Projectile.range p' = 0 /\
     Projectile.final_speed p' = 0).
Proof.
  intros Hr Hfl.
  destruct (reachable_in_flight p Hr Hfl)
    as (_ & (pre & Htr) & _ & Hft & Hrg & Hfs).
  repeat (split; [assumption|]).
  intros p' Hs. split.
  - destruct (step_cases p p' Hfl Hs) as (ax & ay & Ha & [[Hy ->] | [Hy Hl]]);
      destruct (update_metrics_fields (Projectile.integrate p ax ay))
        as (_ & _ & _ & Ey & _ & _ & Etr & _ & _ & _ & _ & _ & _ & _ & Emax).
    + rewrite Emax, Ey. reflexivity.
    + cbn in Etr. rewrite Htr, snoc_two in Etr.
      destruct (land_snoc _ _ _ _ _ _ _ _ Etr)
        as (q & Hq & _ & _ & _ & _ & _ & _ & _ & _ & Ly & _ & _ & _ & _ & _
            & Lmax).
      rewrite Hq in Hl. inversion Hl; subst q.
      rewrite Lmax, Ly, Emax, Ey. reflexivity.
  - intros Hfl'.
    destruct (reachable_in_flight p' (reach_step p p' Hr Hs) Hfl')
      as (_ & _ & _ & Hft' & Hrg' & Hfs').
    now repeat split.
Qed.

Lemma metrics_until_landing_witness :
  reachable rising /\ Projectile.landed rising = false /\
  Projectile.flight_time rising = 0.
Proof.
  assert (Hr : reachable rising) by constructor.
  split; [exact Hr|]. split; [reflexivity|].
  exact (proj1 (metrics_until_landing rising Hr eq_refl)).
Defined.

(** ** No division by zero after [spawn_projectile] (C9) *)

(** The mass and the area are those of the construction. *)
Lemma step_mass_area (p p' : Projectile.obj) :
  Projectile.step p = Ok p' ->
  Projectile.mass p' = Projectile.mass p /\
  Projectile.area p' = Projectile.area p.
Proof.
  intros Hs. destruct (Projectile.landed p) eqn:Hfl.
  - rewrite step_landed in Hs by assumption. now inversion Hs.
  - destruct (step_cases p p' Hfl Hs) as (ax & ay & Ha & [[Hy ->] | [Hy Hl]]);
      destruct (update_metrics_fields (Projectile.integrate p ax ay))
        as (_ & _ & _ & _ & _ & _ & Etr & _ & Em & Ea & _).
    + now rewrite Em, Ea.
    + unfold Projectile.land in Hl.
      destruct (neg_index _ 1) as [[[t2 x2] y2] | e]; [|discriminate].
      cbn [bind] in Hl.
      destruct (neg_index _ 2) as [[[t1 x1] y1] | e]; [|discriminate].
      cbn [bind] in Hl.
      destruct (if feq y2 y1 then _ else _) as [f | e]; [|discriminate].
      cbn [bind] in Hl.
      destruct (set_last _ _) as [tr | e]; [|discriminate].
      cbn [bind] in Hl. inversion Hl; subst p'. cbn.
      now rewrite Em, Ea.
Qed.

(** With a non-zero mass, a call of [step] raises no exception. *)
Lemma step_total (p : Projectile.obj) :
  reachable p -> Projectile.mass p <> 0 ->
  exists p', Projectile.step p = Ok p'.
Proof.
  intros Hr Hm. destruct (Projectile.landed p) eqn:Hfl.
  - exists p. now apply step_landed.
  - destruct (reachable_in_flight p Hr Hfl) as (_ & (pre & Htr) & _).
    destruct (Projectile.acceleration p
                (hypot (Projectile.vx p) (Projectile.vy p)))
      as [[ax ay] | e] eqn:Ha.
    + destruct (Rlt_dec 0 (Projectile.y (Projectile.integrate p ax ay)))
        as [Hy | Hy].
      * eexists. apply (step_flies p Hfl ax ay Ha Hy).
      * rewrite (step_lands p Hfl ax ay Ha) by lra.
        destruct (update_metrics_fields (Projectile.integrate p ax ay))
          as (_ & _ & _ & _ & _ & _ & Etr & _).
        cbn in Etr. rewrite Htr, snoc_two in Etr.
        destruct (land_snoc _ _ _ _ _ _ _ _ Etr) as (p' & Hl & _).
        now exists p'.
    + apply acceleration_raises in Ha. tauto.
Qed.

Lemma run_total (n : nat) (p : Projectile.obj) :
  reachable p -> Projectile.mass p <> 0 ->
  exists q, Projectile.run n p = Ok q /\
            Projectile.mass q = Projectile.mass p.
Proof.
  revert p. induction n as [|n IH]; intros p Hr Hm; cbn [Projectile.run].
  - now exists p.
  - destruct (step_total p Hr Hm) as [p' Hs]. rewrite Hs. cbn [bind].
    destruct (step_mass_area p p' Hs) as [Em _].
    destruct (IH p' (reach_step p p' Hr Hs)) as (q & Hq & Eq);
      [now rewrite Em|].
    exists q. split; [assumption|]. now rewrite Eq.
Qed.

(** C9.  Whatever the values of the fields, [spawn_projectile] appends a
    projectile constructed with the mass [max(0.0001, mass)], which is at
    least [0.0001], and the starting height [max(0, height)], which is at
    least [0].  No call of [step] on that projectile raises an exception,
    however many are made: after each of them the mass is still positive
    and the acceleration is computed without a division by zero.  In
    [acceleration] the only division that can fail at all is the one by a
    zero mass: the divisions by [v] are made under the guard [v > 0]. *)
Theorem spawn_projectile_safe (app : ProjectileApp.obj)
    (angle speed mass_value height_value : R) (air : bool) (draw : nat) :
  let app' :=
    ProjectileApp.spawn_projectile app angle speed mass_value height_value
      air draw in
  let p :=
    Projectile.init angle speed (Rmax 0.0001 mass_value)
      (Rmax 0 height_value) air (Some (gen_color draw)) draw in
  ProjectileApp.projectiles app' = ProjectileApp.projectiles app ++ [p] /\
  0.0001 <= Projectile.mass p /\ 0 <= Projectile.y0 p /\
  (forall n, exists q,
     Projectile.run n p = Ok q /\ 0 < Projectile.mass q /\
     exists a,
       Projectile.acceleration q (hypot (Projectile.vx q) (Projectile.vy q))
       = Ok a) /\
  (forall q v e,
     Projectile.acceleration q v = Raise e ->
     0 < v /\ Projectile.mass q = 0).
Proof.
  cbv zeta.
  assert (Hm : 0.0001 <= Rmax 0.0001 mass_value) by apply Rmax_l.
  split; [|split; [|split; [|split]]].
  - unfold ProjectileApp.spawn_projectile.
    cbn [ProjectileApp.projectiles]. rewrite !py_max_Rmax.
    replace 0.0 with 0 by lra. reflexivity.
  - exact Hm.
  - cbn [Projectile.y0 Projectile.init]. apply Rmax_l.
  - intros n.
    set (p := Projectile.init angle speed (Rmax 0.0001 mass_value)
                (Rmax 0 height_value) air (Some (gen_color draw)) draw).
    assert (Hr : reachable p) by constructor.
    assert (Hp : Projectile.mass p <> 0)
      by (cbn [Projectile.mass p Projectile.init]; lra).
    destruct (run_total n p Hr Hp) as (q & Hq & Em).
    exists q. split; [assumption|].
    assert (Hq0 : 0 < Projectile.mass q)
      by (rewrite Em; cbn [Projectile.mass p Projectile.init]; lra).
    split; [assumption|].
    destruct (Projectile.acceleration q
                (hypot (Projectile.vx q) (Projectile.vy q)))
      as [a | e] eqn:Ha; [now exists a|].
    apply acceleration_raises in Ha. lra.
  - intros q v e Ha. apply acceleration_raises in Ha. tauto.
Qed.

(** ** A launch from the ground that does not go up (C10) *)

Lemma PI_gt_3 : 3 < PI.
Proof. pose proof PI2_3_2. lra. Qed.

Lemma cube_root_8000 : Rpower (1 / 8000) (1 / 3) = 1 / 20.
Proof.
  assert (H20 : 0 < 1 / 20) by lra.
  replace (1 / 8000) with (Rpower (1 / 20) (INR 3)).
  - rewrite Rpower_mult. replace (INR 3 * (1 / 3)) with 1 by (cbn; lra).
    now apply Rpower_1.
  - rewrite Rpower_pow by assumption. lra.
Qed.

(** The area of a projectile of 1 kg is at least 0.0075. *)
Lemma area_of_unit_mass : 0.0075 <= Projectile.area_of 1.
Proof.
  unfold Projectile.area_of. rewrite derive_area_positive by lra.
  pose proof PI_gt_3 as Hpi3. pose proof PI_4 as Hpi4.
  assert (Hb : 1 / 8000 <= 3 * (1 / 1000) / (4 * PI)).
  { replace (3 * (1 / 1000) / (4 * PI)) with (3 / 4000 * / PI)
      by (field; lra).
    assert (H : / 4 <= / PI) by (apply Rinv_le_contravar; lra).
    lra. }
  assert (Hr : 1 / 20 <= Rpower (3 * (1 / 1000) / (4 * PI)) (1 / 3)).
  { rewrite <- cube_root_8000. apply Rle_Rpower_l; lra. }
  nra.
Qed.

Lemma plunging_velocity :
  Projectile.vx plunging = 0 /\ Projectile.vy plunging = - 100000 /\
  hypot (Projectile.vx plunging) (Projectile.vy plunging) = 100000.
Proof.
  assert (Hx : Projectile.vx plunging = 0).
  { cbn [Projectile.vx plunging Projectile.init].
    rewrite radians_minus_90, cos_neg, cos_PI2. lra. }
  assert (Hy : Projectile.vy plunging = - 100000).
  { cbn [Projectile.vy plunging Projectile.init].
    rewrite radians_minus_90, sin_neg, sin_PI2. lra. }
  repeat split; [assumption | assumption |].
  rewrite Hx, Hy. unfold hypot.
  replace (0 * 0 + - 100000 * - 100000) with (100000 * 100000) by lra.
  apply sqrt_square. lra.
Qed.

(** C10, as stated, fails: launched straight down from the ground at
    100000 m/s with drag, a projectile of 1 kg has a non-positive vertical
    velocity, yet its first call of [step] does not land it: the drag of the
    Euler step overshoots and sends it upwards. *)
Lemma plunging_does_not_land :
  Projectile.y0 plunging = 0 /\ Projectile.vy plunging <= 0 /\
  exists p', Projectile.step plunging = Ok p' /\
             Projectile.landed p' = false /\ 0 < Projectile.y p'.
Proof.
  destruct plunging_velocity as (Hx & Hy & Hv).
  split; [reflexivity|]. split; [lra|].
  assert (Ha := acceleration_drag plunging 100000 eq_refl).
  specialize (Ha ltac:(lra)
                 ltac:(cbn [Projectile.mass plunging Projectile.init]; lra)).
  cbv zeta in Ha.
  set (ax := - _ / _) in Ha. set (ay := - _ / _ - _) in Ha.
  rewrite <- Hv in Ha.
  assert (Hay : 100000 < ay * 0.01 - 1).
  { unfold ay, AIR_DENSITY, DRAG_COEFF, G_EARTH. rewrite Hy.
    cbn [Projectile.mass Projectile.area plunging Projectile.init].
    pose proof area_of_unit_mass as HA.
    replace (- 100000 / 100000) with (- 1) by lra. lra. }
  assert (Hpos : 0 < Projectile.y (Projectile.integrate plunging ax ay)).
  { cbn [Projectile.y Projectile.integrate Projectile.dt]. rewrite Hy.
    cbn [Projectile.y Projectile.dt plunging Projectile.init]. lra. }
  exists (Projectile.update_metrics (Projectile.integrate plunging ax ay)).
  split; [exact (step_flies plunging eq_refl ax ay Ha Hpos)|].
  destruct (update_metrics_fields (Projectile.integrate plunging ax ay))
    as (_ & _ & _ & Ey & _ & _ & _ & Eld & _).
  rewrite Eld, Ey. split; [reflexivity | exact Hpos].
Qed.

(** The constructor leaves a projectile launched at height [0] in that
    state. *)
Lemma init_launched_from_ground (angle_deg speed m : R)
    (air_resistance : bool) (color : option Color) (draw : nat) :
  launched_from_ground
    (Projectile.init angle_deg speed m 0 air_resistance color draw).
Proof.
  unfold launched_from_ground. cbn.
  replace 0.0 with 0 by lra. repeat split; reflexivity.
Qed.

(** C10, amended.  Take a projectile in the state the constructor builds
    for a starting height of [0], and let [(ax, ay)] be the acceleration of
    its first call of [step], [vy' = vy + ay * dt] the updated vertical
    velocity and [x' = x + (vx + ax * dt) * dt] the updated abscissa.

    - Without drag (the air resistance is off, or the speed is [0]) an
      initial [vy <= 0] gives [vy' <= 0].
    - Whenever [vy' <= 0], the first call of [step] marks the projectile
      landed with flight time [0], and its trajectory consists of exactly
      two samples, both at time [0] and height [0]: the seed and the landing
      sample, whose abscissa is the range.  The range is [0] when [x'] is
      a finite float.
    - When the new height [vy' * dt] is positive, the first call of [step]
      does not land the projectile.

    With drag, an initial [vy <= 0] does not give [vy' <= 0]: the Euler
    update of the drag can overshoot, as for [plunging]. *)
Theorem ground_launch_lands (p : Projectile.obj) (ax ay : R) :
  let v := hypot (Projectile.vx p) (Projectile.vy p) in
  let vy' := Projectile.vy p + ay * Projectile.dt p in
  let x' := Projectile.x p
            + (Projectile.vx p + ax * Projectile.dt p) * Projectile.dt p in
  launched_from_ground p ->
  Projectile.acceleration p v = Ok (ax, ay) ->
  (Projectile.vy p <= 0 -> Projectile.air p = false \/ v = 0 ->
   vy' <= 0) /\
  exists p',
    Projectile.step p = Ok p' /\
    (vy' <= 0 ->
     Projectile.landed p' = true /\ Projectile.flight_time p' = 0 /\
     Projectile.trajectory p' = [(0, 0, 0); (0, Projectile.range p', 0)] /\
     (finite x' -> Projectile.range p' = 0)) /\
    (0 < vy' * Projectile.dt p -> Projectile.landed p' = false).
Proof.
  intros v vy' x' (Hy0 & Hx & Hy & Ht & Hdt & Htr & Hld) Ha.
  split.
  - intros Hvy Hfree.
    assert (Ha' : Projectile.acceleration p v = Ok (0.0, - G_EARTH)).
    { apply acceleration_free. destruct Hfree as [H | H];
        [now left | right; lra]. }
    rewrite Ha' in Ha. inversion Ha as [[Hax Hay]]. unfold vy'.
    rewrite Hdt, <- Hay. unfold G_EARTH. lra.
  - set (q := Projectile.integrate p ax ay).
    assert (Eq : Projectile.y q = vy' * Projectile.dt p).
    { unfold q, vy'. cbn [Projectile.y Projectile.integrate].
      rewrite Hy. lra. }
    destruct (Rle_dec (Projectile.y q) 0) as [Hdown | Hup].
    + rewrite (step_lands p Hld ax ay Ha Hdown).
      destruct (update_metrics_fields q)
        as (_ & _ & _ & _ & _ & _ & Etr & _).
      assert (Etr' : Projectile.trajectory (Projectile.update_metrics q)
                     = [] ++ [(0, 0, 0);
                              (Projectile.t q, Projectile.x q,
                               Projectile.y q)]).
      { rewrite Etr. unfold q at 1.
        cbn [Projectile.trajectory Projectile.integrate]. rewrite Htr.
        reflexivity. }
      destruct (land_snoc _ _ _ _ _ _ _ _ Etr')
        as (p' & Hl & Hft & Hrg & _ & Hland & Htr' & _).
      rewrite crossing_fraction_from_ground in Hft, Hrg.
      assert (Hft' : Projectile.flight_time p' = 0) by lra.
      exists p'. split; [exact Hl|]. split.
      * intros _. split; [exact Hland|]. split; [exact Hft'|].
        split; [rewrite Htr', Hft'; reflexivity|].
        intros _. lra.
      * intros Hpos. rewrite Eq in Hdown. lra.
    + assert (Hpos : 0 < Projectile.y q) by lra.
      exists (Projectile.update_metrics q).
      split; [exact (step_flies p Hld ax ay Ha Hpos)|]. split.
      * intros Hvy'. rewrite Eq, Hdt in Hpos. nra.
      * intros _.
        destruct (update_metrics_fields q)
          as (_ & _ & _ & _ & _ & _ & _ & Eld & _).
        rewrite Eld. exact Hld.
Qed.

Lemma Rpower_base_1 (y : R) : Rpower 1 y = 1.
Proof. unfold Rpower. now rewrite ln_1, Rmult_0_r, exp_0. Qed.

(** The area of a projectile of 1 kg is at most 4. *)
Lemma area_of_unit_mass_le : Projectile.area_of 1 <= 4.
Proof.
  unfold Projectile.area_of. rewrite derive_area_positive by lra.
  pose proof PI_gt_3 as Hpi3. pose proof PI_4 as Hpi4.
  set (q := 3 * (1 / 1000) / (4 * PI)).
  assert (Hq : 0 < q <= 1).
  { unfold q. split.
    - apply Rdiv_lt_0_compat; lra.
    - apply (Rmult_le_reg_r (4 * PI)); [lra|].
      replace (3 * (1 / 1000) / (4 * PI) * (4 * PI)) with (3 / 1000)
        by (field; lra).
      lra. }
  assert (Hr : Rpower q (1 / 3) <= 1).
  { pose proof (Rle_Rpower_l q 1 (1 / 3) ltac:(lra) Hq) as H.
    now rewrite Rpower_base_1 in H. }
  assert (Hr0 : 0 < Rpower q (1 / 3)) by apply exp_pos.
  nra.
Qed.

Lemma skimming_velocity :
  Projectile.vx skimming = 1000000 /\ Projectile.vy skimming = 0 /\
  hypot (Projectile.vx skimming) (Projectile.vy skimming) = 1000000.
Proof.
  assert (Hr : radians 0 = 0) by (unfold radians; lra).
  assert (Hx : Projectile.vx skimming = 1000000).
  { cbn [Projectile.vx skimming Projectile.init]. rewrite Hr, cos_0. lra. }
  assert (Hy : Projectile.vy skimming = 0).
  { cbn [Projectile.vy skimming Projectile.init]. rewrite Hr, sin_0. lra. }
  repeat split; [assumption | assumption |].
  rewrite Hx, Hy. unfold hypot.
  replace (1000000 * 1000000 + 0 * 0) with (1000000 * 1000000) by lra.
  apply sqrt_square. lra.
Qed.

Lemma ground_launch_lands_witness :
  launched_from_ground skimming /\
  exists p', Projectile.step skimming = Ok p' /\
             Projectile.landed p' = true /\
             Projectile.flight_time p' = 0 /\ Projectile.range p' = 0.
Proof.
  destruct skimming_velocity as (Hx & Hy & Hv).
  assert (Hg : launched_from_ground skimming)
    by apply init_launched_from_ground.
  assert (Ha := acceleration_drag skimming 1000000 eq_refl).
  specialize (Ha ltac:(lra)
                 ltac:(cbn [Projectile.mass skimming Projectile.init]; lra)).
  cbv zeta in Ha.
  set (ax := - _ / _) in Ha. set (ay := - _ / _ - _) in Ha.
  rewrite <- Hv in Ha.
  assert (Hay : ay = - 9.81).
  { unfold ay, G_EARTH. rewrite Hy.
    cbn [Projectile.mass skimming Projectile.init].
    replace (0 / 1000000) with 0 by lra. lra. }
  assert (Hax : - 1200000000000 <= ax <= 0).
  { unfold ax, AIR_DENSITY, DRAG_COEFF. rewrite Hx.
    cbn [Projectile.mass Projectile.area skimming Projectile.init].
    pose proof area_of_unit_mass as HA.
    pose proof area_of_unit_mass_le as HA'.
    replace (1000000 / 1000000) with 1 by lra. lra. }
  assert (Hdt : Projectile.dt skimming = 0.01) by reflexivity.
  assert (Hx0 : Projectile.x skimming = 0)
    by (cbn [Projectile.x skimming Projectile.init]; lra).
  assert (Hdown : Projectile.vy skimming + ay * Projectile.dt skimming <= 0)
    by (rewrite Hy, Hay, Hdt; lra).
  assert (Hfin : finite (Projectile.x skimming
                         + (Projectile.vx skimming
                            + ax * Projectile.dt skimming)
                           * Projectile.dt skimming)).
  { rewrite Hx0, Hx, Hdt. unfold finite, FLOAT_MAX. lra. }
  split; [exact Hg|].
  destruct (proj2 (ground_launch_lands skimming ax ay Hg Ha))
    as (p' & Hs & Hl & _).
  destruct (Hl Hdown) as (Hld & Hft & _ & Hrg).
  exists p'. split; [exact Hs|]. split; [exact Hld|].
  split; [exact Hft | exact (Hrg Hfin)].
Defined.

(** * Further properties of the projectile *)

(** ** What [step] never touches *)

Lemma land_frame (p p' : Projectile.obj) :
  Projectile.land p = Ok p' ->
  Projectile.angle p' = Projectile.angle p /\
  Projectile.v0 p' = Projectile.v0 p /\
  Projectile.mass p' = Projectile.mass p /\
  Projectile.y0 p' = Projectile.y0 p /\
  Projectile.air p' = Projectile.air p /\
  Projectile.dt p' = Projectile.dt p /\
  Projectile.color p' = Projectile.color p /\
  Projectile.area p' = Projectile.area p.
Proof.
  unfold Projectile.land. intros Hl.
  destruct (neg_index _ 1) as [[[t2 x2] y2] | e]; [|discriminate].
  cbn [bind] in Hl.
  destruct (neg_index _ 2) as [[[t1 x1] y1] | e]; [|discriminate].
  cbn [bind] in Hl.
  destruct (if feq y2 y1 then _ else _) as [f | e]; [|discriminate].
  cbn [bind] in Hl.
  destruct (set_last _ _) as [tr | e]; [|discriminate].
  cbn [bind] in Hl. inversion Hl; subst p'. cbn. repeat split.
Qed.

Lemma update_metrics_frame (p : Projectile.obj) :
  let q := Projectile.update_metrics p in
  Projectile.angle q = Projectile.angle p /\
  Projectile.v0 q = Projectile.v0 p /\
  Projectile.mass q = Projectile.mass p /\
  Projectile.y0 q = Projectile.y0 p /\
  Projectile.air q = Projectile.air p /\
  Projectile.dt q = Projectile.dt p /\
  Projectile.color q = Projectile.color p /\
  Projectile.area q = Projectile.area p.
Proof.
  cbv zeta. unfold Projectile.update_metrics.
  destruct (fgt _ _); cbn; repeat split.
Qed.

Lemma step_frame (p p' : Projectile.obj) :
  Projectile.step p = Ok p' ->
  Projectile.angle p' = Projectile.angle p /\
  Projectile.v0 p' = Projectile.v0 p /\
  Projectile.mass p' = Projectile.mass p /\
  Projectile.y0 p' = Projectile.y0 p /\
  Projectile.air p' = Projectile.air p /\
  Projectile.dt p' = Projectile.dt p /\
  Projectile.color p' = Projectile.color p /\
  Projectile.area p' = Projectile.area p.
Proof.
  intros Hs. destruct (Projectile.landed p) eqn:Hfl.
  - rewrite step_landed in Hs by assumption. inversion Hs. repeat split.
  - destruct (step_cases p p' Hfl Hs) as (ax & ay & Ha & [[Hy ->] | [Hy Hl]]).
    + exact (update_metrics_frame (Projectile.integrate p ax ay)).
    + destruct (land_frame _ _ Hl) as (E1 & E2 & E3 & E4 & E5 & E6 & E7 & E8).
      destruct (update_metrics_frame (Projectile.integrate p ax ay))
        as (F1 & F2 & F3 & F4 & F5 & F6 & F7 & F8).
      rewrite E1, E2, E3, E4, E5, E6, E7, E8, F1, F2, F3, F4, F5, F6, F7, F8.
      cbn. repeat split.
Qed.

Lemma run_frame (n : nat) (p q : Projectile.obj) :
  Projectile.run n p = Ok q ->
  Projectile.angle q = Projectile.angle p /\
  Projectile.v0 q = Projectile.v0 p /\
  Projectile.mass q = Projectile.mass p /\
  Projectile.y0 q = Projectile.y0 p /\
  Projectile.air q = Projectile.air p /\
  Projectile.dt q = Projectile.dt p /\
  Projectile.color q = Projectile.color p /\
  Projectile.area q = Projectile.area p.
Proof.
  revert p. induction n as [|n IH]; intros p Hrun; cbn in Hrun.
  - inversion Hrun. repeat split.
  - destruct (Projectile.step p) as [p' | e] eqn:Hs; [|discriminate].
    cbn in Hrun.
    destruct (step_frame p p' Hs) as (E1 & E2 & E3 & E4 & E5 & E6 & E7 & E8).
    destruct (IH p' Hrun) as (F1 & F2 & F3 & F4 & F5 & F6 & F7 & F8).
    rewrite F1, F2, F3, F4, F5, F6, F7, F8.
    repeat split; assumption.
Qed.

(** The launch parameters of a projectile (angle, initial speed, mass,
    starting height, air-resistance flag), its time step, its colour and its
    area are the same after any number of calls of [step]. *)
Theorem run_keeps_parameters (n : nat) (p q : Projectile.obj) :
  Projectile.run n p = Ok q ->
  Projectile.angle q = Projectile.angle p /\
  Projectile.v0 q = Projectile.v0 p /\
  Projectile.mass q = Projectile.mass p /\
  Projectile.y0 q = Projectile.y0 p /\
  Projectile.air q = Projectile.air p /\
  Projectile.dt q = Projectile.dt p /\
  Projectile.color q = Projectile.color p /\
  Projectile.area q = Projectile.area p.
Proof. exact (run_frame n p q). Qed.

Lemma run_at_rest_once :
  exists q, Projectile.run 1 at_rest = Ok q /\ Projectile.landed q = true.
Proof.
  destruct at_rest_lands as (q & Hs & Hld). exists q. split; [|exact Hld].
  cbn [Projectile.run]. now rewrite Hs.
Qed.

Lemma run_keeps_parameters_witness :
  exists q, Projectile.run 1 at_rest = Ok q /\
            Projectile.mass q = Projectile.mass at_rest.
Proof.
  destruct run_at_rest_once as (q & Hrun & _).
  exists q. split; [exact Hrun|].
  apply (run_keeps_parameters 1 at_rest q Hrun).
Defined.

(** ** One sample per step *)

(** A call of [step] on a projectile in flight appends exactly one sample
    and advances the clock by [dt]. *)
Lemma step_appends (p p' : Projectile.obj) :
  Projectile.step p = Ok p' -> Projectile.landed p = false ->
  (exists s, Projectile.trajectory p' = Projectile.trajectory p ++ [s]) /\
  Projectile.t p' = Projectile.t p + Projectile.dt p.
Proof.
  intros Hs Hfl.
  destruct (step_cases p p' Hfl Hs) as (ax & ay & Ha & [[Hy ->] | [Hy Hl]]);
    destruct (update_metrics_fields (Projectile.integrate p ax ay))
      as (_ & _ & _ & _ & Et & _ & Etr & _).
  - rewrite Etr, Et. cbn. split; [now eexists | reflexivity].
  - cbn [Projectile.trajectory Projectile.integrate] in Etr.
    destruct (nil_or_snoc (Projectile.trajectory p))
      as [Htr | (pre & [[t1 x1] y1] & Htr)]; rewrite Htr in *.
    + unfold Projectile.land in Hl. rewrite Etr in Hl. discriminate.
    + rewrite snoc_two in Etr.
      destruct (land_snoc _ _ _ _ _ _ _ _ Etr)
        as (q & Hq & _ & _ & _ & _ & Htr' & _ & _ & _ & _ & Lt & _).
      rewrite Hq in Hl. inversion Hl; subst q.
      rewrite Htr', Lt, Et, <- snoc_two. cbn. split; [now eexists|reflexivity].
Qed.

Lemma run_landed (n : nat) (p : Projectile.obj) :
  Projectile.landed p = true -> Projectile.run n p = Ok p.
Proof.
  intros Hld. induction n as [|n IH]; cbn [Projectile.run]; [reflexivity|].
  rewrite step_landed by assumption. exact IH.
Qed.

Lemma run_keeps_flying (n : nat) (p q : Projectile.obj) :
  Projectile.run n p = Ok q -> Projectile.landed q = false ->
  Projectile.landed p = false.
Proof.
  intros Hrun Hfl. destruct (Projectile.landed p) eqn:Hp; [|reflexivity].
  rewrite run_landed in Hrun by assumption. inversion Hrun; subst.
  congruence.
Qed.

Lemma run_length (n : nat) (p q : Projectile.obj) :
  Projectile.run n p = Ok q ->
  (length (Projectile.trajectory q)
   <= length (Projectile.trajectory p) + n)%nat /\
  (Projectile.landed q = false ->
   length (Projectile.trajectory q)
   = (length (Projectile.trajectory p) + n)%nat).
Proof.
  revert p. induction n as [|n IH]; intros p Hrun; cbn in Hrun.
  - inversion Hrun; subst. split; [lia | intros _; lia].
  - destruct (Projectile.step p) as [p' | e] eqn:Hs; [|discriminate].
    cbn in Hrun. destruct (IH p' Hrun) as [Hle Heq].
    destruct (Projectile.landed p) eqn:Hp.
    + rewrite step_landed in Hs by assumption. inversion Hs; subst p'.
      split; [lia|]. intros Hq.
      pose proof (run_keeps_flying n p q Hrun Hq). congruence.
    + destruct (step_appends p p' Hs Hp) as [[s Htr] _].
      rewrite Htr, length_app in *. cbn [length] in *.
      split; [lia|]. intros Hq. specialize (Heq Hq). lia.
Qed.

(** Every call of [step] on a projectile in flight appends one sample and
    advances the clock by [dt]; the trajectory is never empty.  After [n]
    calls of [step] on a new projectile there are at most [n + 1] samples,
    and exactly [n + 1] while it is in flight. *)
Theorem one_sample_per_step :
  (forall p, reachable p -> (1 <= length (Projectile.trajectory p))%nat) /\
  (forall p p',
     Projectile.step p = Ok p' -> Projectile.landed p = false ->
     (exists s, Projectile.trajectory p' = Projectile.trajectory p ++ [s]) /\
     Projectile.t p' = Projectile.t p + Projectile.dt p) /\
  (forall n angle_deg speed mass y0 air_resistance color draw q,
     Projectile.run n
       (Projectile.init angle_deg speed mass y0 air_resistance color draw)
     = Ok q ->
     (length (Projectile.trajectory q) <= S n)%nat /\
     (Projectile.landed q = false ->
      length (Projectile.trajectory q) = S n)).
Proof.
  split; [|split].
  - induction 1 as [| p p' Hr IH Hs]; [cbn; lia|].
    destruct (Projectile.landed p) eqn:Hp.
    + rewrite step_landed in Hs by assumption. now inversion Hs; subst p'.
    + destruct (step_appends p p' Hs Hp) as [[s Htr] _].
      rewrite Htr, length_app. cbn [length]. lia.
  - intros p p' Hs Hp. exact (step_appends p p' Hs Hp).
  - intros n angle_deg speed mass y0 air_resistance color draw q Hrun.
    destruct (run_length n _ q Hrun) as [Hle Heq]. cbn [length
      Projectile.trajectory Projectile.init] in Hle, Heq.
    split; [lia|]. intros Hq. specialize (Heq Hq). lia.
Qed.

(** ** The ground and the maximum height *)

Lemma largest_snoc (d a : R) (l : list R) :
  largest d (l ++ [a]) = Rmax a (largest d l).
Proof. now rewrite largest_app. Qed.

(** The sample that a call of [step] appends, and the maximum height after
    it. *)
Lemma step_sample (p p' : Projectile.obj) :
  reachable p -> Projectile.landed p = false ->
  Projectile.step p = Ok p' ->
  exists s,
    Projectile.trajectory p' = Projectile.trajectory p ++ [s] /\
    ((Projectile.landed p' = false /\ 0 < Projectile.y p' /\
      s = (Projectile.t p', Projectile.x p', Projectile.y p')) \/
     (Projectile.landed p' = true /\ Projectile.y p' <= 0 /\
      s = (Projectile.flight_time p', Projectile.range p', 0))) /\
    Projectile.max_height p'
    = Rmax (Projectile.max_height p) (Projectile.y p').
Proof.
  intros Hr Hp Hs.
  destruct (reachable_in_flight p Hr Hp) as (_ & (pre & Htr) & _).
  destruct (step_cases p p' Hp Hs) as (ax & ay & Ha & [[Hy ->] | [Hy Hl]]);
    destruct (update_metrics_fields (Projectile.integrate p ax ay))
      as (_ & _ & Ex & Ey & Et & _ & Etr & Eld & _ & _ & _ & _ & _ & _
          & Emax).
  - eexists. split; [rewrite Etr; reflexivity|]. split.
    + left. rewrite Eld, Ex, Ey, Et. repeat split; [exact Hp | exact Hy].
    + rewrite Emax, Ey. reflexivity.
  - cbn [Projectile.trajectory Projectile.integrate] in Etr.
    rewrite Htr, snoc_two in Etr.
    destruct (land_snoc _ _ _ _ _ _ _ _ Etr)
      as (q & Hq & _ & _ & _ & Hld & Htr' & _ & _ & _ & Ly & _ & _ & _ & _
          & _ & Lmax).
    rewrite Hq in Hl. inversion Hl; subst q.
    eexists. split; [rewrite Htr', Htr, snoc_two; reflexivity|]. split.
    + right. rewrite Ly, Ey. repeat split; assumption.
    + rewrite Lmax, Emax, Ly, Ey. reflexivity.
Qed.

(** The launch point and the running maximum, as an invariant. *)
Lemma ground_invariant (p : Projectile.obj) :
  reachable p -> 0 <= Projectile.y0 p ->
  (exists rest,
     Projectile.trajectory p = (0, 0, Projectile.y0 p) :: rest) /\
  Forall (fun s => 0 <= s_y s) (Projectile.trajectory p) /\
  Projectile.max_height p
  = largest (Projectile.y0 p) (map s_y (Projectile.trajectory p)).
Proof.
  intros Hr Hy0.
  induction Hr as [| p p' Hr IH Hs].
  - cbn. split; [exists []; repeat f_equal; lra|].
    split; [constructor; [exact Hy0 | constructor]|].
    unfold Rmax. destruct (Rle_dec y0 y0); reflexivity.
  - destruct (step_frame p p' Hs) as (_ & _ & _ & Ey0 & _).
    rewrite Ey0 in *. specialize (IH Hy0).
    destruct IH as ((rest & Hhd) & Hall & Hmax).
    destruct (Projectile.landed p) eqn:Hp.
    + rewrite step_landed in Hs by assumption. inversion Hs; subst p'.
      split; [now exists rest|]. now split.
    + pose proof (largest_ge_default (Projectile.y0 p)
                    (map s_y (Projectile.trajectory p))) as Hge.
      rewrite <- Hmax in Hge.
      destruct (step_sample p p' Hr Hp Hs) as (s & Htr & Hcase & Emax).
      rewrite Htr, Emax, map_app. cbn [map]. rewrite largest_snoc, <- Hmax.
      split; [rewrite Hhd; now eexists|].
      destruct Hcase as [(_ & Hy & ->) | (_ & Hy & ->)]; cbn [s_y snd].
      * split; [|apply Rmax_comm].
        apply Forall_app. split; [assumption|].
        constructor; [cbn [s_y snd]; lra | constructor].
      * split.
        -- apply Forall_app. split; [assumption|].
           constructor; [cbn [s_y snd]; lra | constructor].
        -- rewrite Rmax_left by lra. rewrite Rmax_right by lra.
           reflexivity.
Qed.

(** Launched from a height [y0 >= 0], a projectile never records a sample
    below the ground, its first sample is the launch point, and
    [max_height] is the largest [y] of its trajectory. *)
Theorem never_below_ground (p : Projectile.obj) :
  reachable p -> 0 <= Projectile.y0 p ->
  (exists rest,
     Projectile.trajectory p = (0, 0, Projectile.y0 p) :: rest) /\
  Forall (fun s => 0 <= s_y s) (Projectile.trajectory p) /\
  Projectile.max_height p
  = largest (Projectile.y0 p) (map s_y (Projectile.trajectory p)) /\
  Projectile.y0 p <= Projectile.max_height p.
Proof.
  intros Hr Hy0.
  destruct (ground_invariant p Hr Hy0) as (Hhd & Hall & Hmax).
  repeat (split; [assumption|]).
  rewrite Hmax. apply largest_ge_default.
Qed.

Lemma never_below_ground_witness :
  reachable rising /\ 0 <= Projectile.y0 rising /\
  Forall (fun s => 0 <= s_y s) (Projectile.trajectory rising).
Proof.
  assert (Hr : reachable rising) by constructor.
  assert (Hy : 0 <= Projectile.y0 rising)
    by (cbn [Projectile.y0 rising Projectile.init]; lra).
  split; [exact Hr|]. split; [exact Hy|].
  exact (proj1 (proj2 (never_below_ground rising Hr Hy))).
Defined.

(** ** Where the projectile lands *)

(** Between a height [y1 >= 0] and a height [y2 <= 0] the fraction of the
    landing interpolation lies in [[0, 1]] before it is clamped. *)
Lemma crossing_fraction_unclamped (y1 y2 : R) :
  0 <= y1 -> y2 <= 0 ->
  exists frac,
    (y2 = y1 -> frac = 0) /\
    (y2 <> y1 -> frac = (0 - y1) / (y2 - y1)) /\
    0 <= frac <= 1 /\ crossing_fraction y1 y2 = frac.
Proof.
  intros H1 H2. unfold crossing_fraction.
  destruct (Req_dec_T y2 y1) as [He | He].
  - exists 0. split; [reflexivity|]. split; [contradiction|].
    split; [lra|]. rewrite Rmin_right by lra. apply Rmax_left. lra.
  - exists ((0 - y1) / (y2 - y1)).
    split; [contradiction|]. split; [reflexivity|].
    assert (Hf : (0 - y1) / (y2 - y1) = y1 / (y1 - y2)) by (field; lra).
    assert (H01 : 0 <= y1 / (y1 - y2) <= 1).
    { split.
      - apply Rmult_le_pos; [lra|]. left. apply Rinv_0_lt_compat. lra.
      - apply (Rmult_le_reg_r (y1 - y2)); [lra|].
        replace (y1 / (y1 - y2) * (y1 - y2)) with y1 by (field; lra). lra. }
    rewrite Hf. split; [exact H01|].
    rewrite Rmin_right by lra. apply Rmax_right. lra.
Qed.

(** The landing of a projectile launched from a height [y0 >= 0] needs no
    clamping.  With [(t1, x1, y1)] the last sample in flight and [(t, x, y)]
    the sample integrated by the landing step, [y1 >= 0 >= y], and the
    fraction [frac] of the interpolation, [0] when [y = y1] and
    [(0 - y1) / (y - y1)] otherwise, lies in [[0, 1]] as it is; the flight
    time is [t1 + frac * (t - t1)], the range [x1 + frac * (x - x1)], and
    the landing sample [(flight_time, range, 0)] has taken the place of
    [(t, x, y)] after [(t1, x1, y1)]. *)
Theorem landing_interpolation (p : Projectile.obj) :
  reachable p -> 0 <= Projectile.y0 p -> Projectile.landed p = true ->
  exists pre t1 x1 y1 frac,
    Projectile.trajectory p
    = pre ++ [(t1, x1, y1);
              (Projectile.flight_time p, Projectile.range p, 0)] /\
    0 <= y1 /\ Projectile.y p <= 0 /\
    (Projectile.y p = y1 -> frac = 0) /\
    (Projectile.y p <> y1 -> frac = (0 - y1) / (Projectile.y p - y1)) /\
    0 <= frac <= 1 /\
    Projectile.flight_time p = t1 + frac * (Projectile.t p - t1) /\
    Projectile.range p = x1 + frac * (Projectile.x p - x1).
Proof.
  intros Hr Hy0 Hld.
  destruct (reachable_landed p Hr Hld) as (q & Hrq & Hfl & Hs).
  destruct (step_frame q p Hs) as (_ & _ & _ & Ey0 & _).
  rewrite Ey0 in Hy0.
  destruct (ground_invariant q Hrq Hy0) as (_ & Hall & _).
  destruct (reachable_in_flight q Hrq Hfl) as (_ & (pre & Htr) & _).
  destruct (step_cases q p Hfl Hs) as (ax & ay & Ha & [[Hy ->] | [Hy Hl]]);
    destruct (update_metrics_fields (Projectile.integrate q ax ay))
      as (_ & _ & Ex & Ey & Et & _ & Etr & Eld & _).
  - rewrite Eld in Hld. cbn in Hld. congruence.
  - cbn [Projectile.trajectory Projectile.integrate] in Etr.
    rewrite Htr, snoc_two in Etr.
    destruct (land_snoc _ _ _ _ _ _ _ _ Etr)
      as (p' & Hl' & Hft & Hrg & _ & _ & Htr' & _ & _ & Lx & Ly & Lt & _).
    rewrite Hl' in Hl. inversion Hl; subst p'. clear Hl.
    assert (Hy1 : 0 <= Projectile.y q).
    { rewrite Htr in Hall. apply Forall_app in Hall. destruct Hall as [_ H].
      inversion H; subst. assumption. }
    assert (Hy2 : Projectile.y p <= 0) by (rewrite Ly, Ey; exact Hy).
    destruct (crossing_fraction_unclamped _ _ Hy1 Hy2)
      as (frac & Hz & Hnz & H01 & Hfrac).
    exists pre, (Projectile.t q), (Projectile.x q), (Projectile.y q), frac.
    split; [exact Htr'|]. split; [exact Hy1|]. split; [exact Hy2|].
    split; [exact Hz|]. split; [exact Hnz|]. split; [exact H01|].
    rewrite <- Hfrac. split.
    + rewrite Hft, Lt, Et, Ly, Ey. reflexivity.
    + rewrite Hrg, Lx, Ex, Ly, Ey. reflexivity.
Qed.

Lemma landing_interpolation_witness :
  exists p, reachable p /\ 0 <= Projectile.y0 p /\
            Projectile.landed p = true /\ Projectile.y p <= 0.
Proof.
  destruct at_rest_lands as (p & Hs & Hld).
  assert (Hr : reachable p)
    by (apply (reach_step at_rest); [constructor | exact Hs]).
  assert (Hy0 : 0 <= Projectile.y0 p).
  { destruct (step_frame at_rest p Hs) as (_ & _ & _ & -> & _).
    cbn [Projectile.y0 at_rest Projectile.init]. lra. }
  exists p. split; [exact Hr|]. split; [exact Hy0|]. split; [exact Hld|].
  destruct (landing_interpolation p Hr Hy0 Hld)
    as (pre & t1 & x1 & y1 & frac & _ & _ & Hy & _).
  exact Hy.
Defined.

(** ** [clamp] *)

(** [clamp v a b] is [v] inside [[a, b]], [a] below it and [b] above it; when
    the bounds are crossed ([b <= a]) it is [a] whatever [v]. *)
Theorem clamp_cases (v a b : R) :
  (v <= a -> clamp v a b = a) /\
  (a <= v <= b -> clamp v a b = v) /\
  (a <= b <= v -> clamp v a b = b) /\
  (b <= a -> clamp v a b = a) /\
  (a <= b -> a <= clamp v a b <= b).
Proof.
  rewrite clamp_Rmax_Rmin. unfold Rmax, Rmin.
  destruct (Rle_dec b v); destruct (Rle_dec a _); repeat split; intros; lra.
Qed.

(** * Properties of the scene *)

(** ** [update] steps every projectile on its own *)

Lemma step_all_each (ps ps' : list Projectile.obj) :
  ProjectileApp.step_all ps = Ok ps' ->
  Forall2 (fun p p' => Projectile.step p = Ok p') ps ps'.
Proof.
  revert ps'. induction ps as [|p ps IH]; intros ps' Hs; cbn in Hs.
  - inversion Hs. constructor.
  - destruct (Projectile.landed p) eqn:Hfl; cbn [negb bind] in Hs.
    + destruct (ProjectileApp.step_all ps) as [qs | e]; [|discriminate].
      cbn in Hs. inversion Hs; subst. constructor; [|now apply IH].
      now apply step_landed.
    + destruct (Projectile.step p) as [p' | e] eqn:Hp; [|discriminate].
      cbn [bind] in Hs.
      destruct (ProjectileApp.step_all ps) as [qs | e]; [|discriminate].
      cbn in Hs. inversion Hs; subst. constructor; [assumption|now apply IH].
Qed.

Lemma Forall2_same {A : Type} (R : A -> A -> Prop) (l : list A) :
  (forall a, R a a) -> Forall2 R l l.
Proof. intros H. induction l; constructor; auto. Qed.

Lemma step_all_total (ps : list Projectile.obj) :
  Forall (fun p => exists p', Projectile.step p = Ok p') ps ->
  exists ps', ProjectileApp.step_all ps = Ok ps'.
Proof.
  induction 1 as [|p ps [p' Hp] _ [ps' IH]]; cbn.
  - now eexists.
  - rewrite IH.
    destruct (Projectile.landed p); cbn [negb bind]; [now eexists|].
    rewrite Hp. cbn. now eexists.
Qed.

(** When [update] returns, every projectile of the new collection is the
    result of [step] on the projectile at the same place of the old one (a
    landed one is left as it is), so the collection keeps its length and
    order; the selection and the play flag are untouched.  A paused
    application keeps its projectiles as they are, but its message timer
    runs on: the message is advanced by one frame whether the application
    is playing or not. *)
Theorem update_steps_each (app app' : ProjectileApp.obj) (m m' : Message) :
  update_frame app m = Ok (app', m') ->
  m' = update_message m /\
  ProjectileApp.is_playing app' = ProjectileApp.is_playing app /\
  ProjectileApp.selected_index app' = ProjectileApp.selected_index app /\
  length (ProjectileApp.projectiles app')
  = length (ProjectileApp.projectiles app) /\
  (ProjectileApp.is_playing app = false ->
   ProjectileApp.projectiles app' = ProjectileApp.projectiles app) /\
  (ProjectileApp.is_playing app = true ->
   Forall2 (fun p p' => Projectile.step p = Ok p')
     (ProjectileApp.projectiles app) (ProjectileApp.projectiles app')) /\
  Forall2 (fun p p' => Projectile.landed p = true -> p' = p)
    (ProjectileApp.projectiles app) (ProjectileApp.projectiles app').
Proof.
  unfold update_frame, ProjectileApp.update. intros Hu.
  destruct (ProjectileApp.is_playing app) eqn:Hplay.
  - destruct (ProjectileApp.step_all (ProjectileApp.projectiles app))
      as [ps | e] eqn:Hs; [|discriminate].
    cbn in Hu. inversion Hu; subst app' m'. cbn.
    apply step_all_each in Hs.
    split; [reflexivity|]. split; [reflexivity|]. split; [reflexivity|].
    split; [symmetry; exact (Forall2_length Hs)|].
    split; [discriminate|]. split; [intros _; exact Hs|].
    eapply Forall2_impl; [|exact Hs]. cbn. intros p p' Hp Hld.
    rewrite step_landed in Hp by assumption. now inversion Hp.
  - cbn in Hu. inversion Hu; subst app' m'.
    split; [reflexivity|]. split; [exact Hplay|]. split; [reflexivity|].
    split; [reflexivity|]. split; [reflexivity|]. split; [discriminate|].
    apply Forall2_same. auto.
Qed.

Lemma update_steps_each_witness :
  exists app' m',
    update_frame
      (ProjectileApp.spawn_projectile ProjectileApp.init 0 0 1 0 false 0)
      (flash_message "Exported" (100, 210, 130)%nat 3.0)
    = Ok (app', m') /\
    m' = update_message (flash_message "Exported" (100, 210, 130)%nat 3.0) /\
    length (ProjectileApp.projectiles app') = 1%nat.
Proof.
  set (msg := flash_message "Exported" (100, 210, 130)%nat 3.0).
  set (p0 := Projectile.init 0 0 (py_max 0.0001 1) (py_max 0.0 0) false
               (Some (gen_color 0)) 0).
  assert (Hm : Projectile.mass p0 <> 0).
  { cbn [Projectile.mass p0 Projectile.init]. rewrite py_max_Rmax.
    pose proof (Rmax_l 0.0001 1). lra. }
  destruct (step_total p0 (reach_init _ _ _ _ _ _ _) Hm) as [p' Hp'].
  assert (Hu : update_frame
                 (ProjectileApp.spawn_projectile ProjectileApp.init
                    0 0 1 0 false 0) msg
               = Ok ({| ProjectileApp.projectiles := [p'];
                        ProjectileApp.is_playing := true;
                        ProjectileApp.selected_index := Some 0%nat |},
                     update_message msg)).
  { change (ProjectileApp.spawn_projectile ProjectileApp.init
              0 0 1 0 false 0)
      with {| ProjectileApp.projectiles := [p0];
              ProjectileApp.is_playing := true;
              ProjectileApp.selected_index := Some 0%nat |}.
    unfold update_frame, ProjectileApp.update.
    cbn [ProjectileApp.is_playing ProjectileApp.projectiles
         ProjectileApp.selected_index ProjectileApp.step_all].
    change (Projectile.landed p0) with false. cbn [negb].
    rewrite Hp'. reflexivity. }
  do 2 eexists. split; [exact Hu|].
  destruct (update_steps_each _ _ _ _ Hu) as (Hmsg & _ & _ & Hlen & _).
  split; [exact Hmsg | exact Hlen].
Defined.

(** ** From the world to the screen *)

Lemma Int_part_bounds (r : R) : IZR (Int_part r) <= r < IZR (Int_part r) + 1.
Proof. destruct (base_Int_part r). lra. Qed.

Lemma int_of_float_IZR (z : Z) : int_of_float (IZR z) = z.
Proof.
  unfold int_of_float. destruct (fle_spec 0 (IZR z)) as [H | H].
  - symmetry. apply Int_part_spec. lra.
  - rewrite <- opp_IZR. rewrite <- (Int_part_spec (IZR (- z)) (- z)%Z); [lia|].
    lra.
Qed.

Lemma int_of_float_between (a b : Z) (r : R) :
  IZR a <= r <= IZR b -> (a <= int_of_float r <= b)%Z.
Proof.
  intros [Ha Hb]. unfold int_of_float.
  destruct (fle_spec 0 r) as [H | H].
  - destruct (Int_part_bounds r) as [H1 H2]. split.
    + apply Z.lt_succ_r. apply lt_IZR. rewrite succ_IZR. lra.
    + apply le_IZR. lra.
  - destruct (Int_part_bounds (- r)) as [H1 H2]. split.
    + apply le_IZR. rewrite opp_IZR. lra.
    + apply Z.lt_succ_r. apply lt_IZR. rewrite succ_IZR, opp_IZR. lra.
Qed.

Lemma compute_bounds_positive (ps : list Projectile.obj) :
  12 <= fst (ProjectileApp.compute_bounds ps) /\
  6 <= snd (ProjectileApp.compute_bounds ps).
Proof.
  rewrite compute_bounds_padded. cbn [fst snd].
  pose proof (largest_ge_default 10 (map s_x (all_samples ps))).
  pose proof (largest_ge_default 5 (map s_y (all_samples ps))).
  lra.
Qed.

Lemma world_to_screen_ok (gx gy gw gh : Z) (ps : list Projectile.obj)
    (x_m y_m : R) :
  world_to_screen (gx, gy, gw, gh) ps x_m y_m
  = Ok (int_of_float
          (IZR gx + x_m / fst (ProjectileApp.compute_bounds ps) * IZR gw),
        int_of_float
          (IZR (gy + gh)
           - y_m / snd (ProjectileApp.compute_bounds ps) * IZR gh)).
Proof.
  unfold world_to_screen.
  destruct (compute_bounds_positive ps) as [Hx Hy].
  destruct (ProjectileApp.compute_bounds ps) as [max_x max_y].
  cbn [fst snd] in *.
  rewrite fdiv_ok by lra. cbn [bind]. rewrite fdiv_ok by lra. reflexivity.
Qed.

(** [world_to_screen] never divides by zero, whatever the point and the
    collection: the extents it divides by are at least [12] and [6].  The
    origin of the world is the bottom-left corner of the graph rectangle. *)
Theorem world_to_screen_origin (gx gy gw gh : Z)
    (ps : list Projectile.obj) :
  12 <= fst (ProjectileApp.compute_bounds ps) /\
  6 <= snd (ProjectileApp.compute_bounds ps) /\
  (forall x_m y_m,
     world_to_screen (gx, gy, gw, gh) ps x_m y_m
     <> Raise ZeroDivisionError) /\
  world_to_screen (gx, gy, gw, gh) ps 0 0 = Ok (gx, (gy + gh)%Z).
Proof.
  destruct (compute_bounds_positive ps) as [Hx Hy].
  split; [exact Hx|]. split; [exact Hy|]. split.
  - intros x_m y_m. rewrite world_to_screen_ok. discriminate.
  - rewrite world_to_screen_ok. f_equal. f_equal.
    + replace (IZR gx + 0 / _ * IZR gw) with (IZR gx)
        by (unfold Rdiv; ring).
      apply int_of_float_IZR.
    + replace (IZR (gy + gh) - 0 / _ * IZR gh) with (IZR (gy + gh))
        by (unfold Rdiv; ring).
      apply int_of_float_IZR.
Qed.

(** The pixel that [world_to_screen] returns for a recorded sample with
    non-negative coordinates lies inside the graph rectangle (of
    non-negative width and height). *)
Theorem samples_inside_graph (gx gy gw gh : Z) (ps : list Projectile.obj)
    (p : Projectile.obj) (s : sample) (sx sy : Z) :
  (0 <= gw)%Z -> (0 <= gh)%Z ->
  In p ps -> In s (Projectile.trajectory p) ->
  0 <= s_x s -> 0 <= s_y s ->
  world_to_screen (gx, gy, gw, gh) ps (s_x s) (s_y s) = Ok (sx, sy) ->
  (gx <= sx <= gx + gw)%Z /\ (gy <= sy <= gy + gh)%Z.
Proof.
  intros Hw Hh Hp Hs Hx Hy. rewrite world_to_screen_ok.
  intros Hok. inversion Hok as [[Hsx' Hsy']]. clear Hok Hsx' Hsy'.
  pose proof (In_all_samples ps p s Hp Hs) as Hin.
  rewrite compute_bounds_padded. cbn [fst snd].
  set (mx := largest 10 (map s_x (all_samples ps))).
  set (my := largest 5 (map s_y (all_samples ps))).
  assert (Hmx : 10 <= mx) by apply largest_ge_default.
  assert (Hmy : 5 <= my) by apply largest_ge_default.
  assert (Hsx : s_x s <= mx) by (apply largest_ge_In; now apply in_map).
  assert (Hsy : s_y s <= my) by (apply largest_ge_In; now apply in_map).
  assert (Hgw : 0 <= IZR gw) by now apply IZR_le.
  assert (Hgh : 0 <= IZR gh) by now apply IZR_le.
  assert (Hqx : 0 <= s_x s / (mx * 1.2) <= 1).
  { split.
    - apply Rmult_le_pos; [lra|]. left. apply Rinv_0_lt_compat. lra.
    - apply (Rmult_le_reg_r (mx * 1.2)); [lra|].
      replace (s_x s / (mx * 1.2) * (mx * 1.2)) with (s_x s)
        by (field; lra).
      lra. }
  assert (Hqy : 0 <= s_y s / (my * 1.2) <= 1).
  { split.
    - apply Rmult_le_pos; [lra|]. left. apply Rinv_0_lt_compat. lra.
    - apply (Rmult_le_reg_r (my * 1.2)); [lra|].
      replace (s_y s / (my * 1.2) * (my * 1.2)) with (s_y s)
        by (field; lra).
      lra. }
  split; apply int_of_float_between; rewrite ?plus_IZR; nra.
Qed.

Lemma samples_inside_graph_witness :
  world_to_screen (0, 0, 800, 600)%Z [at_rest] 0.0 0 = Ok (0, 600)%Z /\
  (0 <= 0 <= 0 + 800)%Z /\ (0 <= 600 <= 0 + 600)%Z.
Proof.
  assert (Hok : world_to_screen (0, 0, 800, 600)%Z [at_rest] 0.0 0
                = Ok (0, 600)%Z).
  { rewrite world_to_screen_ok. f_equal. f_equal.
    - replace (IZR 0 + 0.0 / _ * IZR 800) with (IZR 0)
        by (unfold Rdiv; replace 0.0 with 0 by lra; ring).
      apply int_of_float_IZR.
    - replace (IZR (0 + 600) - 0 / _ * IZR 600) with (IZR 600)
        by (unfold Rdiv; cbn [Z.add]; ring).
      apply int_of_float_IZR. }
  split; [exact Hok|].
  apply (samples_inside_graph 0 0 800 600 [at_rest] at_rest (0.0, 0.0, 0)).
  - lia.
  - lia.
  - now left.
  - now left.
  - cbn [s_x fst snd]. lra.
  - cbn [s_y snd]. lra.
  - exact Hok.
Defined.

(** ** The selection by a click *)

Section HitTest.

Variables (graph_rect : Rect) (ps : list Projectile.obj) (scale : R).
Variables (mx my : Z).

Let dist := screen_distance graph_rect ps mx my.

Lemma hit_sample_eq (idx : nat) (p : Projectile.obj)
    (nearest : option Projectile.obj) (nr_dist : R) (sel_idx : option nat)
    (s : sample) :
  hit_sample graph_rect ps scale mx my idx p (nearest, nr_dist, sel_idx) s
  = Ok (if flt (dist s) nr_dist && flt (dist s) (12 * scale)
        then (Some p, dist s, Some idx)
        else (nearest, nr_dist, sel_idx)).
Proof.
  unfold dist, screen_distance, hit_sample.
  destruct s as [[t x] y]. destruct graph_rect as [[[gx gy] gw] gh].
  cbn [s_x s_y fst snd]. rewrite world_to_screen_ok. cbn [bind].
  destruct (_ && _); reflexivity.
Qed.

(** The scan of one trajectory: the distance kept only decreases, it is
    not above the distance of any sample within reach, and the state either
    is unchanged or comes from a sample of the trajectory. *)
Lemma hit_samples_spec (idx : nat) (p : Projectile.obj) (l : list sample)
    (nearest : option Projectile.obj) (nr_dist : R)
    (sel_idx : option nat) :
  exists nearest' nr_dist' sel_idx',
    hit_samples graph_rect ps scale mx my idx p l
      (nearest, nr_dist, sel_idx)
    = Ok (nearest', nr_dist', sel_idx') /\
    nr_dist' <= nr_dist /\
    (forall s, In s l -> dist s < 12 * scale -> nr_dist' <= dist s) /\
    ((nearest', nr_dist', sel_idx') = (nearest, nr_dist, sel_idx) \/
     exists s, In s l /\ nearest' = Some p /\ nr_dist' = dist s /\
               sel_idx' = Some idx /\ dist s < 12 * scale /\
               dist s < nr_dist).
Proof.
  revert nearest nr_dist sel_idx.
  induction l as [|s l IH]; intros nearest nr_dist sel_idx;
    cbn [hit_samples].
  - exists nearest, nr_dist, sel_idx. split; [reflexivity|].
    split; [lra|]. split; [intros s []|]. now left.
  - rewrite hit_sample_eq. cbn [bind].
    destruct (flt_spec (dist s) nr_dist) as [H1 | H1];
      destruct (flt_spec (dist s) (12 * scale)) as [H2 | H2]; cbn [andb].
    + destruct (IH (Some p) (dist s) (Some idx))
        as (n' & r' & i' & Hh & Hle & Hmin & Hc).
      exists n', r', i'. split; [exact Hh|]. split; [lra|].
      split.
      * intros s' [<- | Hin] Hd; [lra | now apply Hmin].
      * right. destruct Hc as [Hc | (s' & Hin & -> & -> & -> & Hd & Hlt)].
        -- inversion Hc; subst. exists s. repeat split; auto. now left.
        -- exists s'. repeat split; auto; [now right | lra].
    + destruct (IH nearest nr_dist sel_idx)
        as (n' & r' & i' & Hh & Hle & Hmin & Hc).
      exists n', r', i'. split; [exact Hh|]. split; [lra|].
      split.
      * intros s' [<- | Hin] Hd; [lra | now apply Hmin].
      * destruct Hc as [Hc | (s' & Hin & Hc)]; [now left | right].
        exists s'. split; [now right | exact Hc].
    + destruct (IH nearest nr_dist sel_idx)
        as (n' & r' & i' & Hh & Hle & Hmin & Hc).
      exists n', r', i'. split; [exact Hh|]. split; [lra|].
      split.
      * intros s' [<- | Hin] Hd; [lra | now apply Hmin].
      * destruct Hc as [Hc | (s' & Hin & Hc)]; [now left | right].
        exists s'. split; [now right | exact Hc].
    + destruct (IH nearest nr_dist sel_idx)
        as (n' & r' & i' & Hh & Hle & Hmin & Hc).
      exists n', r', i'. split; [exact Hh|]. split; [lra|].
      split.
      * intros s' [<- | Hin] Hd; [lra | now apply Hmin].
      * destruct Hc as [Hc | (s' & Hin & Hc)]; [now left | right].
        exists s'. split; [now right | exact Hc].
Qed.

(** The scan of the projectiles from index [idx]. *)
Lemma hit_projectiles_spec (l : list Projectile.obj) (idx : nat)
    (nearest : option Projectile.obj) (nr_dist : R)
    (sel_idx : option nat) :
  exists nearest' nr_dist' sel_idx',
    hit_projectiles graph_rect ps scale mx my idx l
      (nearest, nr_dist, sel_idx)
    = Ok (nearest', nr_dist', sel_idx') /\
    nr_dist' <= nr_dist /\
    (forall p s, In p l -> In s (Projectile.trajectory p) ->
                 dist s < 12 * scale -> nr_dist' <= dist s) /\
    ((nearest', nr_dist', sel_idx') = (nearest, nr_dist, sel_idx) \/
     exists k p s,
       nth_error l k = Some p /\ In s (Projectile.trajectory p) /\
       nearest' = Some p /\ nr_dist' = dist s /\
       sel_idx' = Some (idx + k)%nat /\ dist s < 12 * scale /\
       dist s < nr_dist /\
       (forall j p' e, (j < k)%nat -> nth_error l j = Some p' ->
          In e (Projectile.trajectory p') -> dist e < 12 * scale ->
          dist s < dist e)).
Proof.
  revert idx nearest nr_dist sel_idx.
  induction l as [|p l IH]; intros idx nearest nr_dist sel_idx;
    cbn [hit_projectiles].
  - exists nearest, nr_dist, sel_idx. split; [reflexivity|].
    split; [lra|]. split; [intros p s []|]. now left.
  - match goal with |- context [bind ?m _] => set (one := m) end.
    assert (Hone : exists n1 r1 i1,
        one = Ok (n1, r1, i1) /\
        r1 <= nr_dist /\
        (forall s, In s (Projectile.trajectory p) ->
                   dist s < 12 * scale -> r1 <= dist s) /\
        ((n1, r1, i1) = (nearest, nr_dist, sel_idx) \/
         exists s, In s (Projectile.trajectory p) /\ n1 = Some p /\
                   r1 = dist s /\ i1 = Some idx /\ dist s < 12 * scale /\
                   dist s < nr_dist)).
    { unfold one. destruct (Projectile.trajectory p) as [|s0 tr] eqn:Htr.
      - exists nearest, nr_dist, sel_idx. split; [reflexivity|].
        split; [lra|]. split; [intros s []|]. now left.
      - apply hit_samples_spec. }
    destruct Hone as (n1 & r1 & i1 & -> & Hle1 & Hmin1 & Hc1). cbn [bind].
    destruct (IH (S idx) n1 r1 i1) as (n' & r' & i' & Hh & Hle & Hmin & Hc).
    exists n', r', i'. split; [exact Hh|]. split; [lra|]. split.
    + intros p' s [<- | Hin] Hs Hd.
      * specialize (Hmin1 s Hs Hd). lra.
      * now apply (Hmin p' s).
    + destruct Hc
        as [Hc | (k & p' & s & Hk & Hs & -> & -> & -> & Hd & Hlt & Hfirst)].
      * inversion Hc; subst n' r' i'.
        destruct Hc1 as [Hc1 | (s & Hs & -> & -> & -> & Hd & Hlt)];
          [now left | right].
        exists 0%nat, p, s. rewrite Nat.add_0_r. repeat split; auto.
        intros j p' e Hj. lia.
      * right. exists (S k), p', s.
        replace (idx + S k)%nat with (S idx + k)%nat by lia.
        repeat split; auto; [lra|].
        intros j q e Hj Hq He Hde. destruct j as [|j].
        -- cbn in Hq. inversion Hq; subst q.
           specialize (Hmin1 e He Hde). lra.
        -- cbn in Hq. apply (Hfirst j q e); [lia | assumption..].
Qed.

End HitTest.

(** The scan of a click inside the graph rectangle, on the whole
    collection. *)
Lemma select_at_scan (collidepoint : Rect -> Z * Z -> bool)
    (graph_rect : Rect) (scale : R) (app : ProjectileApp.obj) (mx my : Z) :
  let ps := ProjectileApp.projectiles app in
  let dist := screen_distance graph_rect ps mx my in
  let reach := fun s => dist s < 12 * scale /\ dist s < 9999 in
  exists app',
    select_at collidepoint graph_rect scale app (mx, my) = Ok app' /\
    ProjectileApp.projectiles app' = ps /\
    ProjectileApp.is_playing app' = ProjectileApp.is_playing app /\
    (collidepoint graph_rect (mx, my) = false -> app' = app) /\
    (collidepoint graph_rect (mx, my) = true ->
     ((forall p s, In p ps -> In s (Projectile.trajectory p) ->
                   ~ reach s) ->
      app' = app) /\
     ((exists p s, In p ps /\ In s (Projectile.trajectory p) /\ reach s) ->
      exists i p s,
        ProjectileApp.selected_index app' = Some i /\
        nth_error ps i = Some p /\ In s (Projectile.trajectory p) /\
        reach s /\
        (forall p' s', In p' ps -> In s' (Projectile.trajectory p') ->
                       dist s <= dist s') /\
        (forall j p' s', (j < i)%nat -> nth_error ps j = Some p' ->
                         In s' (Projectile.trajectory p') ->
                         dist s' < 12 * scale -> dist s < dist s'))).
Proof.
  intros ps dist reach. unfold select_at. fold ps.
  destruct (collidepoint graph_rect (mx, my)) eqn:Hin.
  2:{ exists app. repeat split; auto. discriminate. }
  destruct (hit_projectiles_spec graph_rect ps scale mx my ps 0 None 9999
              None)
    as (n' & r' & i' & Hh & Hle & Hmin & Hc).
  fold dist in Hmin, Hc. rewrite Hh. cbn [bind].
  destruct Hc
    as [Hc | (k & p & s & Hk & Hs & -> & -> & -> & Hd & Hlt & Hfirst)].
  - inversion Hc; subst n' r' i'. exists app.
    repeat split; auto; try discriminate.
    intros (p & s & Hp & Hs & Hd & Hlt).
    specialize (Hmin p s Hp Hs Hd). lra.
  - eexists. split; [reflexivity|]. cbn.
    split; [reflexivity|]. split; [reflexivity|].
    split; [discriminate|]. intros _. split.
    + intros Hnone. exfalso.
      apply (Hnone p s); [now apply (nth_error_In ps k) | assumption |].
      now split.
    + intros _. exists k, p, s.
      repeat split; auto.
      intros p' s' Hp' Hs'.
      destruct (Rlt_dec (dist s') (12 * scale)) as [Hd' | Hd'].
      * now apply (Hmin p' s').
      * lra.
Qed.

(** A click at [(mx, my)] that is handled without an exception changes
    nothing but the selection.  Outside the graph rectangle, or with no
    sample closer on screen than [12 * scale] pixels and than 9999, the
    application is left as it is.  Otherwise the selection becomes the index
    [i] of a projectile with a sample [s] within that reach, at the smallest
    distance of all samples; every sample within reach of a projectile
    before [i] is strictly farther, so among the nearest projectiles the
    first one of the collection is selected. *)
Theorem select_at_nearest (collidepoint : Rect -> Z * Z -> bool)
    (graph_rect : Rect) (scale : R) (app app' : ProjectileApp.obj)
    (mx my : Z) :
  let ps := ProjectileApp.projectiles app in
  let dist := screen_distance graph_rect ps mx my in
  let reach := fun s => dist s < 12 * scale /\ dist s < 9999 in
  select_at collidepoint graph_rect scale app (mx, my) = Ok app' ->
  ProjectileApp.projectiles app' = ps /\
  ProjectileApp.is_playing app' = ProjectileApp.is_playing app /\
  (collidepoint graph_rect (mx, my) = false -> app' = app) /\
  (collidepoint graph_rect (mx, my) = true ->
   ((forall p s, In p ps -> In s (Projectile.trajectory p) ->
                 ~ reach s) ->
    app' = app) /\
   ((exists p s, In p ps /\ In s (Projectile.trajectory p) /\ reach s) ->
    exists i p s,
      ProjectileApp.selected_index app' = Some i /\
      nth_error ps i = Some p /\ In s (Projectile.trajectory p) /\
      reach s /\
      (forall p' s', In p' ps -> In s' (Projectile.trajectory p') ->
                     dist s <= dist s') /\
      (forall j p' s', (j < i)%nat -> nth_error ps j = Some p' ->
                       In s' (Projectile.trajectory p') ->
                       dist s' < 12 * scale -> dist s < dist s'))).
Proof.
  intros ps dist reach Hsel.
  destruct (select_at_scan collidepoint graph_rect scale app mx my)
    as (app'' & Hsel' & H).
  rewrite Hsel in Hsel'. inversion Hsel'; subst app''. exact H.
Qed.

Lemma select_at_nearest_witness :
  exists app',
    select_at (fun _ _ => true) (0, 0, 800, 600)%Z 1
      ProjectileApp.init (400, 300)%Z
    = Ok app' /\
    app' = ProjectileApp.init.
Proof.
  assert (Hsel : select_at (fun _ _ => true) (0, 0, 800, 600)%Z 1
                   ProjectileApp.init (400, 300)%Z
                 = Ok ProjectileApp.init) by reflexivity.
  exists ProjectileApp.init. split; [exact Hsel|].
  destruct (select_at_nearest _ _ _ _ _ _ _ Hsel) as (_ & _ & _ & Hin).
  apply (Hin eq_refl). intros p s [].
Defined.

(** The distance that the selection compares is the one between the click
    and the pixel of the sample. *)
Lemma screen_distance_eq (graph_rect : Rect) (ps : list Projectile.obj)
    (mx my : Z) (s : sample) (sx sy : Z) :
  world_to_screen graph_rect ps (s_x s) (s_y s) = Ok (sx, sy) ->
  screen_distance graph_rect ps mx my s
  = hypot (IZR (sx - mx)) (IZR (sy - my)).
Proof. intros H. unfold screen_distance. now rewrite H. Qed.

(** ** The application never crashes, and its selection is valid *)

Lemma select_at_selection (collidepoint : Rect -> Z * Z -> bool)
    (graph_rect : Rect) (scale : R) (app app' : ProjectileApp.obj)
    (pos : Z * Z) :
  select_at collidepoint graph_rect scale app pos = Ok app' ->
  ProjectileApp.projectiles app' = ProjectileApp.projectiles app /\
  ProjectileApp.is_playing app' = ProjectileApp.is_playing app /\
  (ProjectileApp.selected_index app' = ProjectileApp.selected_index app \/
   exists i, ProjectileApp.selected_index app' = Some i /\
             (i < length (ProjectileApp.projectiles app))%nat).
Proof.
  destruct pos as [mx my]. unfold select_at.
  destruct (collidepoint graph_rect (mx, my)).
  2:{ intros H. inversion H; subst. repeat split; auto. }
  destruct (hit_projectiles_spec graph_rect (ProjectileApp.projectiles app)
              scale mx my (ProjectileApp.projectiles app) 0 None 9999 None)
    as (n' & r' & i' & Hh & _ & _ & Hc).
  rewrite Hh. cbn [bind].
  destruct Hc as [Hc | (k & p & s & Hk & _ & -> & -> & -> & _)].
  - inversion Hc; subst n' r' i'. intros H. inversion H; subst.
    repeat split; auto.
  - intros H. inversion H; subst app'. cbn.
    split; [reflexivity|]. split; [reflexivity|]. right.
    exists k. split; [reflexivity|].
    apply nth_error_Some. congruence.
Qed.

(** What holds of every state of the application. *)
Lemma app_invariant (app : ProjectileApp.obj) :
  app_reachable app ->
  (forall i, ProjectileApp.selected_index app = Some i ->
             (i < length (ProjectileApp.projectiles app))%nat) /\
  Forall (fun p => reachable p /\ 0.0001 <= Projectile.mass p /\
                   0 <= Projectile.y0 p)
    (ProjectileApp.projectiles app).
Proof.
  induction 1 as [| app a sp m h air draw Hr [IHs IHp]
                    | app Hr [IHs IHp]
                    | app app' Hr [IHs IHp] Hu
                    | app Hr [IHs IHp]
                    | cp rect scale pos app app' Hr [IHs IHp] Hsel].
  - split; [discriminate | constructor].
  - cbn. split.
    + intros i Hi. inversion Hi; subst. rewrite length_app. cbn. lia.
    + apply Forall_app. split; [exact IHp|].
      constructor; [|constructor].
      split; [constructor|]. cbn. rewrite !py_max_Rmax.
      split; [apply Rmax_l|].
      apply (Rle_trans _ 0.0); [lra | apply Rmax_l].
  - cbn. split; [discriminate | constructor].
  - unfold ProjectileApp.update in Hu.
    destruct (ProjectileApp.is_playing app).
    + destruct (ProjectileApp.step_all (ProjectileApp.projectiles app))
        as [ps | e] eqn:Hs; [|discriminate].
      cbn in Hu. inversion Hu; subst app'. cbn.
      apply step_all_each in Hs.
      split.
      * intros i Hi. rewrite <- (Forall2_length Hs). now apply IHs.
      * clear IHs Hu. induction Hs as [|p p' ps0 ps1 Hp _ IH];
          [constructor|].
        inversion IHp as [|? ? (Hrp & Hm & Hy) Hrest]; subst.
        constructor; [|now apply IH].
        destruct (step_frame p p' Hp) as (_ & _ & Em & Ey & _).
        rewrite Em, Ey.
        split; [now apply (reach_step p)|]. now split.
    + inversion Hu; subst app'. now split.
  - cbn. now split.
  - destruct (select_at_selection cp rect scale app app' pos Hsel)
      as (Eps & _ & Hsel').
    rewrite Eps. split; [|exact IHp].
    intros i Hi. destruct Hsel' as [E | (j & E & Hj)].
    + apply IHs. congruence.
    + congruence.
Qed.

(** In every state of the application the selection, if there is one, is
    the index of a projectile of the collection; every projectile has a mass
    of at least [0.0001] and a starting height of at least [0]; and [update]
    returns without an exception. *)
Theorem app_never_crashes (app : ProjectileApp.obj) :
  app_reachable app ->
  (forall i, ProjectileApp.selected_index app = Some i ->
             exists p, nth_error (ProjectileApp.projectiles app) i
                       = Some p) /\
  Forall (fun p => 0.0001 <= Projectile.mass p /\ 0 <= Projectile.y0 p)
    (ProjectileApp.projectiles app) /\
  exists app', ProjectileApp.update app = Ok app'.
Proof.
  intros Hr. destruct (app_invariant app Hr) as [Hsel Hps].
  split; [|split].
  - intros i Hi. specialize (Hsel i Hi).
    destruct (nth_error (ProjectileApp.projectiles app) i) eqn:E;
      [now eexists|].
    apply nth_error_None in E. lia.
  - eapply Forall_impl; [|exact Hps]. cbn. tauto.
  - unfold ProjectileApp.update.
    destruct (ProjectileApp.is_playing app); [|now eexists].
    destruct (step_all_total (ProjectileApp.projectiles app)) as [ps' Hs].
    + eapply Forall_impl; [|exact Hps]. cbn.
      intros p (Hrp & Hm & _). apply step_total; [assumption | lra].
    + rewrite Hs. cbn. now eexists.
Qed.

Lemma app_never_crashes_witness :
  app_reachable
    (ProjectileApp.spawn_projectile ProjectileApp.init 45 25 1 0 true 0) /\
  exists app',
    ProjectileApp.update
      (ProjectileApp.spawn_projectile ProjectileApp.init 45 25 1 0 true 0)
    = Ok app'.
Proof.
  assert (Hr : app_reachable
                 (ProjectileApp.spawn_projectile ProjectileApp.init
                    45 25 1 0 true 0))
    by (apply app_spawn, app_init).
  split; [exact Hr|].
  exact (proj2 (proj2 (app_never_crashes _ Hr))).
Defined.

(** ** The transient message *)

Lemma update_message_running (m : Message) :
  1 < msg_timer m ->
  update_message m
  = {| msg_text := msg_text m; msg_color := msg_color m;
       msg_timer := msg_timer m - 1 |}.
Proof.
  intros H. unfold update_message.
  rewrite fgt_true by lra. rewrite fle_false by lra. reflexivity.
Qed.

Lemma update_message_expires (m : Message) :
  0 < msg_timer m <= 1 ->
  update_message m
  = {| msg_text := EmptyString; msg_color := None;
       msg_timer := msg_timer m - 1 |}.
Proof.
  intros H. unfold update_message.
  rewrite fgt_true by lra. rewrite fle_true by lra. reflexivity.
Qed.

Lemma update_message_idle (m : Message) :
  msg_timer m <= 0 -> update_message m = m.
Proof. intros H. unfold update_message. now rewrite fgt_false. Qed.

Lemma update_message_n_idle (k : nat) (m : Message) :
  msg_timer m <= 0 -> update_message_n k m = m.
Proof.
  intros H. induction k as [|k IH]; cbn; [reflexivity|].
  now rewrite update_message_idle.
Qed.

Lemma update_message_n_running (k j : nat) (m : Message) :
  msg_timer m = INR j -> (k < j)%nat ->
  msg_text (update_message_n k m) = msg_text m /\
  msg_color (update_message_n k m) = msg_color m /\
  msg_timer (update_message_n k m) = INR (j - k).
Proof.
  revert j m. induction k as [|k IH]; intros j m Ht Hk;
    cbn [update_message_n].
  - rewrite Nat.sub_0_r. now repeat split.
  - destruct j as [|j]; [lia|].
    assert (H1 : 1 < msg_timer m).
    { rewrite Ht, S_INR. assert (0 < INR j) by (apply lt_0_INR; lia). lra. }
    rewrite update_message_running by assumption.
    destruct (IH j {| msg_text := msg_text m; msg_color := msg_color m;
                      msg_timer := msg_timer m - 1 |})
      as (E1 & E2 & E3); [cbn; rewrite Ht, S_INR; lra | lia |].
    cbn in E1, E2. now repeat split.
Qed.

(** A message flashed for a duration of [n >= 1] frames
    ([duration * FPS = n]; 180 for the default 3 seconds) keeps its text and
    colour for the next [n - 1] calls of [update], the timer counting down by
    one; the [n]-th call clears the text and the colour, and the message
    stays cleared, with a timer of [0], ever after.  A message flashed for a
    duration [<= 0] is never cleared by [update]. *)
Theorem message_lifetime (text : string) (color : Color) (duration : R)
    (n : nat) :
  duration * 60 = INR n -> (0 < n)%nat ->
  let m := flash_message text color duration in
  (forall k, (k < n)%nat ->
     msg_text (update_message_n k m) = text /\
     msg_color (update_message_n k m) = Some color /\
     msg_timer (update_message_n k m) = INR (n - k)) /\
  (forall k, (n <= k)%nat ->
     msg_text (update_message_n k m) = EmptyString /\
     msg_color (update_message_n k m) = None /\
     msg_timer (update_message_n k m) = 0) /\
  (forall text' color' duration' k, duration' <= 0 ->
     update_message_n k (flash_message text' color' duration')
     = flash_message text' color' duration').
Proof.
  intros Hd Hn m.
  assert (Ht : msg_timer m = INR n) by (cbn; unfold FPS; exact Hd).
  split; [|split].
  - intros k Hk. exact (update_message_n_running k n m Ht Hk).
  - intros k Hk.
    assert (Hlast : update_message_n n m
                    = {| msg_text := EmptyString; msg_color := None;
                         msg_timer := 0 |}).
    { destruct n as [|j]; [lia|].
      destruct (update_message_n_running j (S j) m Ht ltac:(lia))
        as (_ & _ & E3).
      replace (S j - j)%nat with 1%nat in E3 by lia. cbn [INR] in E3.
      assert (Hsplit : forall a b m0,
                update_message_n (a + b) m0
                = update_message_n b (update_message_n a m0)).
      { induction a as [|a IHa]; intros b m0; cbn; [reflexivity|].
        apply IHa. }
      replace (S j) with (j + 1)%nat by lia. rewrite Hsplit.
      cbn [update_message_n]. rewrite update_message_expires by lra.
      rewrite E3. f_equal. lra. }
    assert (Hsplit : forall a b m0,
              update_message_n (a + b) m0
              = update_message_n b (update_message_n a m0)).
    { induction a as [|a IHa]; intros b m0; cbn; [reflexivity|]. apply IHa. }
    replace k with (n + (k - n))%nat by lia.
    rewrite Hsplit, Hlast, update_message_n_idle by (cbn; lra).
    now repeat split.
  - intros text' color' duration' k Hle. apply update_message_n_idle.
    cbn. unfold FPS. lra.
Qed.

Lemma message_lifetime_witness :
  msg_text (update_message_n 179 (flash_message "Exported" (100, 210, 130)%nat
                                    3.0))
  = "Exported"%string /\
  msg_text (update_message_n 180 (flash_message "Exported" (100, 210, 130)%nat
                                    3.0))
  = EmptyString.
Proof.
  assert (Hd : 3.0 * 60 = INR 180)
    by (rewrite INR_IZR_INZ; change (Z.of_nat 180) with 180%Z; lra).
  destruct (message_lifetime "Exported" (100, 210, 130)%nat 3.0 180 Hd
              ltac:(lia)) as (Hrun & Hend & _).
  split.
  - exact (proj1 (Hrun 179%nat ltac:(lia))).
  - exact (proj1 (Hend 180%nat ltac:(lia))).
Defined.

(** * Properties of the text fields *)

Lemma list_ascii_of_string_app (s u : string) :
  list_ascii_of_string (s ++ u)
  = (list_ascii_of_string s ++ list_ascii_of_string u)%list.
Proof. induction s as [|c s IH]; cbn; [reflexivity | now rewrite IH]. Qed.

Lemma list_ascii_of_drop_last (s : string) :
  list_ascii_of_string (drop_last s) = removelast (list_ascii_of_string s).
Proof.
  induction s as [|c s IH]; [reflexivity|].
  destruct s as [|c' s]; [reflexivity|].
  change (drop_last (String c (String c' s)))
    with (String c (drop_last (String c' s))).
  cbn [list_ascii_of_string] in *. rewrite IH. reflexivity.
Qed.

Lemma append_empty_r (s : string) : (s ++ EmptyString)%string = s.
Proof. induction s as [|c s IH]; cbn; [reflexivity | now rewrite IH]. Qed.

Lemma prefix_empty (s : string) : prefix EmptyString s = true.
Proof. destruct s; reflexivity. Qed.

(** A one-character string occurs in [s] exactly when the character is one
    of [s]. *)
Lemma str_in_char (c : ascii) (s : string) :
  str_in (String c EmptyString) s = true
  <-> In c (list_ascii_of_string s).
Proof.
  induction s as [|a s IH]; cbn.
  - split; [discriminate | intros []].
  - destruct (ascii_dec c a) as [-> | Hne].
    + rewrite prefix_empty. cbn. split; auto.
    + cbn. rewrite IH. split; [now right | intros [E | H]; congruence].
Qed.

Lemma short_string (u : string) :
  (String.length u <= 1)%nat ->
  u = EmptyString \/ exists c, u = String c EmptyString.
Proof.
  destruct u as [|c [|c' u]]; cbn; intros H; [now left | right | lia].
  now exists c.
Qed.

Lemma count_occ_removelast (l : list ascii) (c : ascii) :
  (count_occ ascii_dec (removelast l) c <= count_occ ascii_dec l c)%nat.
Proof.
  destruct (nil_or_snoc l) as [-> | (l' & a & ->)]; [cbn; lia|].
  rewrite removelast_last, count_occ_app. lia.
Qed.

Lemma tl_removelast {A : Type} (l : list A) :
  tl (removelast l) = removelast (tl l).
Proof. destruct l as [|a [|b l]]; reflexivity. Qed.

Lemma Forall_removelast {A : Type} (P : A -> Prop) (l : list A) :
  Forall P l -> Forall P (removelast l).
Proof.
  destruct (nil_or_snoc l) as [-> | (l' & a & ->)]; [now cbn|].
  rewrite removelast_last. intros H. apply Forall_app in H. tauto.
Qed.

Lemma numeric_text_drop_last (s : string) :
  numeric_text s -> numeric_text (drop_last s).
Proof.
  unfold numeric_text. cbv zeta. rewrite list_ascii_of_drop_last.
  intros (Hall & Hdot & Hminus). split; [now apply Forall_removelast|].
  split.
  - pose proof (count_occ_removelast (list_ascii_of_string s) "."%char). lia.
  - rewrite tl_removelast.
    pose proof (count_occ_removelast (tl (list_ascii_of_string s))
                  "-"%char).
    lia.
Qed.

Lemma tl_snoc {A : Type} (l : list A) (a : A) :
  l <> [] -> tl (l ++ [a]) = (tl l ++ [a])%list.
Proof. destruct l; [congruence | reflexivity]. Qed.

(** Appending one character that the filter lets through. *)
Lemma numeric_text_append (s : string) (c : ascii) :
  numeric_text s ->
  str_in (String c EmptyString) "0123456789.-" = true ->
  (String.eqb (String c EmptyString) "." && str_in "." s = false) ->
  (String.eqb (String c EmptyString) "-"
   && ((0 <? String.length s)%nat || str_in "-" s) = false) ->
  numeric_text (s ++ String c EmptyString).
Proof.
  unfold numeric_text. cbv zeta. rewrite list_ascii_of_string_app.
  cbn [list_ascii_of_string].
  intros (Hall & Hdot & Hminus) Hc Hd Hm.
  apply str_in_char in Hc.
  split.
  { apply Forall_app. split; [assumption|].
    constructor; [exact Hc | constructor]. }
  split.
  - rewrite count_occ_app. cbn [count_occ].
    destruct (ascii_dec c "."%char) as [-> | Hne]; [|lia].
    cbn [String.eqb Ascii.eqb Bool.eqb andb] in Hd.
    assert (Hno : ~ In "."%char (list_ascii_of_string s)).
    { intros Hin. apply str_in_char in Hin. congruence. }
    apply (count_occ_not_In ascii_dec) in Hno. lia.
  - destruct s as [|a s]; [reflexivity|].
    rewrite tl_snoc by discriminate. rewrite count_occ_app.
    cbn [count_occ].
    destruct (ascii_dec c "-"%char) as [-> | Hne]; [|lia].
    cbn in Hm. discriminate.
Qed.

(** Whatever the events, the text of a field keeps the shape of a number
    being typed: only characters of [0123456789.-], at most one dot and no
    minus sign but in front.  The [unicode] attribute of a key event is one
    character at most. *)
Theorem text_stays_numeric (collidepoint : Rect -> Z * Z -> bool)
    (f : TextField.obj) (ev : Event) :
  numeric_text (TextField.text f) ->
  (forall key unicode, ev = KEYDOWN key unicode ->
                       (String.length unicode <= 1)%nat) ->
  numeric_text (TextField.text (TextField.handle_event collidepoint f ev)).
Proof.
  intros Hnum Hlen. unfold TextField.handle_event.
  destruct ev as [| w h | key unicode | pos | pos |]; try exact Hnum.
  cbn [TextField.on_mouse TextField.on_key].
  destruct (TextField.active f); [|exact Hnum].
  assert (Htype :
    numeric_text
      (TextField.text
         (if str_in unicode "0123456789.-" then
            if String.eqb unicode "." && str_in "." (TextField.text f)
            then f
            else if String.eqb unicode "-"
                    && ((0 <? String.length (TextField.text f))%nat
                        || str_in "-" (TextField.text f)) then f
            else TextField.set_text f (TextField.text f ++ unicode)
          else f))).
  { destruct (str_in unicode "0123456789.-") eqn:Hin; [|exact Hnum].
    destruct (String.eqb unicode "." && str_in "." (TextField.text f))
      eqn:Hd; [exact Hnum|].
    destruct (String.eqb unicode "-"
              && ((0 <? String.length (TextField.text f))%nat
                  || str_in "-" (TextField.text f))) eqn:Hm; [exact Hnum|].
    cbn [TextField.text TextField.set_text].
    destruct (short_string unicode (Hlen key unicode eq_refl))
      as [-> | (c & ->)].
    - rewrite append_empty_r. exact Hnum.
    - now apply numeric_text_append. }
  destruct key; try exact Htype.
  - exact Hnum.
  - exact Hnum.
  - cbn [TextField.text TextField.set_text].
    now apply numeric_text_drop_last.
Qed.

Lemma text_stays_numeric_witness :
  numeric_text "45" /\
  numeric_text
    (TextField.text
       (TextField.handle_event (fun _ _ => true)
          (TextField.mk "Angle" "45" (0, 0, 10, 10)%Z true 0 1)
          (KEYDOWN (K_OTHER 46) "."))).
Proof.
  assert (H : numeric_text "45").
  { unfold numeric_text. cbn. split; [|split; [lia | reflexivity]].
    constructor; [tauto|]. constructor; [tauto|]. constructor. }
  split; [exact H|].
  apply (text_stays_numeric (fun _ _ => true)
           (TextField.mk "Angle" "45" (0, 0, 10, 10)%Z true 0 1)
           (KEYDOWN (K_OTHER 46) ".") H).
  intros key unicode E. inversion E; subst. cbn. lia.
Defined.

(** * The physics of a step *)

Lemma reachable_area (p : Projectile.obj) :
  reachable p -> Projectile.area p = Projectile.area_of (Projectile.mass p).
Proof.
  induction 1 as [| p p' Hr IH Hs]; [reflexivity|].
  destruct (step_frame p p' Hs) as (_ & _ & -> & _ & _ & _ & _ & ->).
  exact IH.
Qed.

(** The area of a projectile is never negative. *)
Lemma area_of_nonneg (m : R) : 0 <= Projectile.area_of m.
Proof.
  unfold Projectile.area_of.
  destruct (Rle_dec m 0) as [Hm | Hm].
  - rewrite derive_area_fallback by assumption. lra.
  - rewrite derive_area_positive by lra.
    pose proof PI_RGT_0 as Hpi.
    assert (Hr : 0 < Rpower (3 * (m / 1000) / (4 * PI)) (1 / 3))
      by apply exp_pos.
    nra.
Qed.

(** With drag, a projectile of positive mass whose drag force
    [0.5 * 1.225 * 0.47 * area * v * v] is a finite float is slowed down:
    the acceleration is gravity plus a force whose components have the
    signs opposite to those of the velocity. *)
Theorem drag_opposes_velocity (p : Projectile.obj) :
  let v := hypot (Projectile.vx p) (Projectile.vy p) in
  reachable p -> 0 < Projectile.mass p -> Projectile.air p = true ->
  0 < v ->
  finite (0.5 * 1.225 * 0.47 * Projectile.area p * v * v) ->
  exists ax ay,
    Projectile.acceleration p v = Ok (ax, ay) /\
    ax * Projectile.vx p <= 0 /\
    (ay + 9.81) * Projectile.vy p <= 0.
Proof.
  intros v Hr Hm Hair Hv _.
  assert (HA : 0 <= Projectile.area p)
    by (rewrite (reachable_area p Hr); apply area_of_nonneg).
  rewrite (acceleration_drag p v Hair Hv) by lra. cbv zeta.
  unfold AIR_DENSITY, DRAG_COEFF, G_EARTH.
  set (m := Projectile.mass p) in *. set (A := Projectile.area p) in *.
  set (vx := Projectile.vx p) in *. set (vy := Projectile.vy p) in *.
  set (K := 0.5 * 1.225 * 0.47 * A * v / m).
  assert (HK : 0 <= K).
  { unfold K. apply Rmult_le_pos; [nra|]. left.
    now apply Rinv_0_lt_compat. }
  assert (Eax : - (0.5 * 1.225 * 0.47 * A * v * v * (vx / v)) / m
                = - K * vx) by (unfold K; field; lra).
  assert (Eay : - (0.5 * 1.225 * 0.47 * A * v * v * (vy / v)) / m - 9.81
                + 9.81 = - K * vy) by (unfold K; field; lra).
  do 2 eexists. split; [reflexivity|].
  rewrite Eax, Eay. split; nra.
Qed.

Lemma drag_opposes_velocity_witness :
  exists ax ay,
    Projectile.acceleration skimming
      (hypot (Projectile.vx skimming) (Projectile.vy skimming))
    = Ok (ax, ay) /\
    ax * Projectile.vx skimming <= 0.
Proof.
  destruct skimming_velocity as (_ & _ & Hv).
  assert (Hr : reachable skimming) by constructor.
  assert (Hm : 0 < Projectile.mass skimming)
    by (cbn [Projectile.mass skimming Projectile.init]; lra).
  assert (Hpos : 0 < hypot (Projectile.vx skimming)
                       (Projectile.vy skimming))
    by (rewrite Hv; lra).
  assert (Hfin : finite (0.5 * 1.225 * 0.47 * Projectile.area skimming
                         * hypot (Projectile.vx skimming)
                             (Projectile.vy skimming)
                         * hypot (Projectile.vx skimming)
                             (Projectile.vy skimming))).
  { rewrite Hv. cbn [Projectile.area skimming Projectile.init].
    pose proof area_of_unit_mass as HA.
    pose proof area_of_unit_mass_le as HA'.
    unfold finite, FLOAT_MAX. lra. }
  destruct (drag_opposes_velocity skimming Hr Hm eq_refl Hpos Hfin)
    as (ax & ay & Ha & Hx & _).
  exists ax, ay. split; [exact Ha | exact Hx].
Defined.
